(** * GoPlus: the [arc] and [future] packages

    A shallow embedding of [pkg/arc/arc.go] (atomically reference-counted
    cells with weak handles) and of the combinators at the end of
    [pkg/option/option.go] (package [future]), followed by the properties
    of the specification that concern them.

    Go objects live in an explicit store.  An [*Arc[T]] is the address of an
    [Arc] struct, whose [ptr] field is either nil or the address of an
    [arcInternal] block; several [Arc] structs may hold the same block
    address.  Every method is a computation in a state-and-panic monad; the
    atomic primitives of [sync/atomic] are single steps of it. *)

From Stdlib Require Import ZArith Lia.
From stdpp Require Import base tactics option list numbers.
From stdpp Require strings.

Local Open Scope Z_scope.

(** ** 64-bit signed integers *)

Module Int64.

Definition min_int : Z := - 2 ^ 63.
Definition max_int : Z := 2 ^ 63 - 1.

(** Two's complement wrap-around of an [int64] result. *)
Definition wrap (z : Z) : Z := (z + 2 ^ 63) `mod` 2 ^ 64 - 2 ^ 63.

Definition in_range (z : Z) : Prop := min_int ≤ z ≤ max_int.

End Int64.

(** ** The store of [Arc], [Weak] and [arcInternal] objects *)

Module arc.

Section Arc.

Context {T : Type}.
(** The zero value of [T] ([var zero T]). *)
Variable zero : T.

(** [arcInternal[T]]: the data and the reference count ([int64]). *)
Record arcInternal := ArcInternal { data : T; ref : Z }.

(** [Arc[T]] and [Weak[T]]: one [unsafe.Pointer], nil or a block address. *)
Record Arc := MkArc { ptr : option nat }.
Record Weak := MkWeak { wptr : option nat }.

(** The heap: objects are addressed by their index; allocation appends. *)
Record Store := MkStore {
  blocks : list arcInternal;
  arcs : list Arc;
  weaks : list Weak
}.

Definition empty : Store := MkStore [] [] [].

(** Computations: [None] is a run-time panic (invalid memory address or
    nil pointer dereference). *)
Definition M (A : Type) : Type := Store → option (A * Store).

Definition ret {A} (x : A) : M A := λ s, Some (x, s).

Definition bind {A B} (m : M A) (k : A → M B) : M B :=
  λ s, match m s with
       | Some (x, s') => k x s'
       | None => None
       end.

Definition panic {A} : M A := λ _, None.

Notation "'let!' x ':=' m 'in' k" := (bind m (λ x, k))
  (at level 10, x pattern, m at level 100, k at level 200, only parsing).
Notation "m ';;' k" := (bind m (λ _, k))
  (at level 100, k at level 200, right associativity, only parsing).

(** *** Memory primitives *)

Definition load_internal (l : nat) : M arcInternal :=
  λ s, match blocks s !! l with
       | Some b => Some (b, s)
       | None => None
       end.

Definition store_internal (l : nat) (b : arcInternal) : M unit :=
  λ s, match blocks s !! l with
       | Some _ => Some (tt, MkStore (<[l:=b]> (blocks s)) (arcs s) (weaks s))
       | None => None
       end.

(** [&arcInternal[T]{...}] *)
Definition new_internal (b : arcInternal) : M nat :=
  λ s, Some (length (blocks s), MkStore (blocks s ++ [b]) (arcs s) (weaks s)).

(** [&Arc[T]{ptr: p}] *)
Definition new_Arc (p : option nat) : M nat :=
  λ s, Some (length (arcs s), MkStore (blocks s) (arcs s ++ [MkArc p]) (weaks s)).

(** [&Weak[T]{ptr: p}] *)
Definition new_Weak (p : option nat) : M nat :=
  λ s, Some (length (weaks s), MkStore (blocks s) (arcs s) (weaks s ++ [MkWeak p])).

(** [a.ptr] *)
Definition get_ptr (a : nat) : M (option nat) :=
  λ s, match arcs s !! a with
       | Some x => Some (ptr x, s)
       | None => None
       end.

(** [a.ptr = p] *)
Definition set_ptr (a : nat) (p : option nat) : M unit :=
  λ s, match arcs s !! a with
       | Some _ => Some (tt, MkStore (blocks s) (<[a:=MkArc p]> (arcs s)) (weaks s))
       | None => None
       end.

(** [w.ptr] *)
Definition get_wptr (w : nat) : M (option nat) :=
  λ s, match weaks s !! w with
       | Some x => Some (wptr x, s)
       | None => None
       end.

(** *** [sync/atomic] *)

Definition atomic_LoadInt64 (l : nat) : M Z :=
  let! b := load_internal l in ret (ref b).

Definition atomic_AddInt64 (l : nat) (delta : Z) : M Z :=
  let! b := load_internal l in
  let n := Int64.wrap (ref b + delta) in
  store_internal l (ArcInternal (data b) n);;
  ret n.

Definition atomic_CompareAndSwapInt64 (l : nat) (old new : Z) : M bool :=
  let! b := load_internal l in
  if decide (ref b = old)
  then store_internal l (ArcInternal (data b) new);; ret true
  else ret false.

(** ** The methods of [arc.go] *)

Definition NewArc (value : T) : M nat :=
  let! internal := new_internal (ArcInternal value 1) in
  new_Arc (Some internal).

Definition Clone (a : nat) : M (option nat) :=
  let! p := get_ptr a in
  match p with
  | None => ret None
  | Some internal =>
      atomic_AddInt64 internal 1;;
      let! a' := new_Arc (Some internal) in
      ret (Some a')
  end.

(** [Deref] returns [&internal.data]: the address of the block whose data
    field the result points to, or nil.  [load_data] reads through it. *)
Definition Deref (a : nat) : M (option nat) :=
  let! p := get_ptr a in
  match p with
  | None => ret None
  | Some internal => ret (Some internal)
  end.

Definition load_data (p : option nat) : M T :=
  match p with
  | None => panic
  | Some internal => let! b := load_internal internal in ret (data b)
  end.

Definition StrongCount (a : nat) : M Z :=
  let! p := get_ptr a in
  match p with
  | None => ret 0
  | Some internal => atomic_LoadInt64 internal
  end.

Definition Drop (a : nat) : M unit :=
  let! p := get_ptr a in
  match p with
  | None => ret tt
  | Some internal =>
      let! n := atomic_AddInt64 internal (-1) in
      if decide (n = 0) then set_ptr a None else ret tt
  end.

Definition GetMut (a : nat) : M (option nat) :=
  let! p := get_ptr a in
  match p with
  | None => ret None
  | Some internal =>
      let! n := atomic_LoadInt64 internal in
      if decide (n = 1) then ret (Some internal) else ret None
  end.

(** The [for] loop of [TryUnwrap]; [fuel] bounds the number of rounds, and
    running out of it stands for a loop that has not returned yet. *)
Fixpoint TryUnwrap_loop (fuel : nat) (a internal : nat) : M (option (T * bool)) :=
  match fuel with
  | O => ret None
  | S fuel' =>
      let! current := atomic_LoadInt64 internal in
      if decide (current ≠ 1) then ret (Some (zero, false))
      else
        let! swapped := atomic_CompareAndSwapInt64 internal 1 0 in
        if swapped : bool then
          let! b := load_internal internal in
          set_ptr a None;;
          ret (Some (data b, true))
        else TryUnwrap_loop fuel' a internal
  end.

Definition TryUnwrap (fuel : nat) (a : nat) : M (option (T * bool)) :=
  let! p := get_ptr a in
  match p with
  | None => ret (Some (zero, false))
  | Some internal => TryUnwrap_loop fuel a internal
  end.

Definition Downgrade (a : nat) : M (option nat) :=
  let! p := get_ptr a in
  match p with
  | None => ret None
  | Some internal =>
      let! w := new_Weak (Some internal) in
      ret (Some w)
  end.

Definition Upgrade (w : nat) : M (option nat) :=
  let! p := get_wptr w in
  match p with
  | None => ret None
  | Some internal =>
      let! current := atomic_AddInt64 internal 1 in
      if decide (current > 1) then
        let! a := new_Arc (Some internal) in
        ret (Some a)
      else
        atomic_AddInt64 internal (-1);;
        ret None
  end.

(** The two atomic operations of [Upgrade] (lines 157 and 168) are separate
    steps, between which other goroutines may run.  [Upgrade_begin] is the
    call up to and including the increment: it yields nil when the call has
    already returned nil, and the block with [current] otherwise.
    [Upgrade_end] is the rest of the call. *)
Definition Upgrade_begin (w : nat) : M (option (nat * Z)) :=
  let! p := get_wptr w in
  match p with
  | None => ret None
  | Some internal =>
      let! current := atomic_AddInt64 internal 1 in
      ret (Some (internal, current))
  end.

Definition Upgrade_end (pending : option (nat * Z)) : M (option nat) :=
  match pending with
  | None => ret None
  | Some (internal, current) =>
      if decide (current > 1) then
        let! a := new_Arc (Some internal) in
        ret (Some a)
      else
        atomic_AddInt64 internal (-1);;
        ret None
  end.

(** A callback that only reads the data through the pointer [p] it
    receives and overwrites it with [fn] of what it has read. *)
Definition call_on_data (fn : T → T) (internal : nat) : M unit :=
  let! b := load_internal internal in
  store_internal internal (ArcInternal (fn (data b)) (ref b)).

(** [With]: the callback [fn] is arbitrary code; it receives
    [&internal.data], runs on the heap as [With] has left it, may use any
    handle it has captured, and may panic. *)
Definition With (a : nat) (fn : nat → M unit) : M bool :=
  let! p := get_ptr a in
  match p with
  | None => ret false
  | Some internal =>
      atomic_AddInt64 internal 1;;
      fn internal;;
      Drop a;;
      ret true
  end.

(** The loop of [MergeArcs] that fills [values]; [arcs] are [*Arc[T]]
    values, nil or an address.  [*arc.Deref()] panics on a nil result. *)
Fixpoint MergeArcs_loop (i : nat) (handles : list (option nat)) (values : list T)
  : M (list T) :=
  match handles with
  | [] => ret values
  | arc :: rest =>
      match arc with
      | Some a =>
          let! p := Deref a in
          let! v := load_data p in
          MergeArcs_loop (S i) rest (<[i:=v]> values)
      | None => MergeArcs_loop (S i) rest values
      end
  end.

Definition MergeArcs_values (handles : list (option nat)) : M (list T) :=
  let values := replicate (length handles) zero in
  MergeArcs_loop 0 handles values.

Definition MemoryBarrier (a : nat) : M unit :=
  let! p := get_ptr a in
  match p with
  | None => ret tt
  | Some internal => atomic_LoadInt64 internal;; ret tt
  end.

Definition CompareAndSwap (a : nat) (oldValue newValue : T) : M bool :=
  let! p := get_ptr a in
  match p with
  | None => ret false
  | Some internal =>
      let! n := atomic_LoadInt64 internal in
      if decide (n ≠ 1) then ret false
      else
        let! b := load_internal internal in
        store_internal internal (ArcInternal newValue (ref b));;
        ret true
  end.

(** [other] is an [*Arc[T]] value; [a.ptr == nil || other.ptr == nil] reads
    [other.ptr] only when [a.ptr] is not nil. *)
Definition Swap (a : nat) (other : option nat) : M unit :=
  let! p := get_ptr a in
  match p with
  | None => ret tt
  | Some _ =>
      match other with
      | None => panic
      | Some o =>
          let! q := get_ptr o in
          match q with
          | None => ret tt
          | Some _ =>
              let temp := p in
              set_ptr a q;;
              set_ptr o temp
          end
      end
  end.

Definition Reset (a : nat) (value : T) : M unit :=
  Drop a;;
  let! internal := new_internal (ArcInternal value 1) in
  set_ptr a (Some internal).

(** [AsRef] returns [&Ref[T]{arc: a.Clone()}]; the result is the [arc]
    field of the new [Ref]. *)
Definition AsRef (a : nat) : M (option (option nat)) :=
  let! p := get_ptr a in
  match p with
  | None => ret None
  | Some _ => let! c := Clone a in ret (Some c)
  end.

Definition IsNil (a : nat) : M bool :=
  let! p := get_ptr a in
  ret (bool_decide (p = None)).

Definition UnsafeRawPtr (a : nat) : M (option nat) := get_ptr a.

(** The count and the contents of a block, and the pointer of a handle, as
    they stand in a store. *)
Definition ref_at (l : nat) (s : Store) : option Z := ref <$> blocks s !! l.
Definition data_at (l : nat) (s : Store) : option T := data <$> blocks s !! l.
Definition ptr_at (a : nat) (s : Store) : option (option nat) := ptr <$> arcs s !! a.

(** ** The remaining functions of [arc.go] *)

(** The loop of [ArcSlice]: [arcs[i] = NewArc(v)].  The slice holds
    [*Arc[T]] values, nil until assigned. *)
Fixpoint ArcSlice_loop (i : nat) (values : list T) (handles : list (option nat))
  : M (list (option nat)) :=
  match values with
  | [] => ret handles
  | v :: rest =>
      let! a := NewArc v in
      ArcSlice_loop (S i) rest (<[i:=Some a]> handles)
  end.

Definition ArcSlice (values : list T) : M (list (option nat)) :=
  let handles := replicate (length values) None in
  ArcSlice_loop 0 values handles.

(** [Ref[T]] has the one field [arc], an [*Arc[T]].  A [Ref] is passed
    explicitly: [Ref_Deref] and [Ref_Release] take the value of [r.arc], and
    [Ref_Release] returns the value it leaves in [r.arc]. *)
Definition Ref_Deref (r_arc : option nat) : M (option nat) :=
  match r_arc with
  | None => ret None
  | Some a => Deref a
  end.

Definition Ref_Release (r_arc : option nat) : M (option nat) :=
  match r_arc with
  | Some a => Drop a;; ret None
  | None => ret r_arc
  end.

(** What [MergeArcs] stores for one argument: the zero value for a nil
    [*Arc[T]], the contents of the block otherwise. *)
Definition merged_value (s : Store) (arc : option nat) : T :=
  match arc with
  | None => zero
  | Some a =>
      match arcs s !! a with
      | Some (MkArc (Some l)) =>
          match blocks s !! l with
          | Some b => data b
          | None => zero
          end
      | _ => zero
      end
  end.





(** ** Sequences of [Clone] and [Drop] on one cell *)

Inductive op := OpClone (h : nat) | OpDrop (h : nat).

Definition step (o : op) : M unit :=
  match o with
  | OpClone h => Clone h;; ret tt
  | OpDrop h => Drop h
  end.

Fixpoint run (ops : list op) : M unit :=
  match ops with
  | [] => ret tt
  | o :: rest => step o;; run rest
  end.

Fixpoint clones (ops : list op) : nat :=
  match ops with
  | [] => O
  | OpClone _ :: rest => S (clones rest)
  | OpDrop _ :: rest => clones rest
  end.

Fixpoint drops (ops : list op) : nat :=
  match ops with
  | [] => O
  | OpClone _ :: rest => drops rest
  | OpDrop _ :: rest => S (drops rest)
  end.

(** The count of block [l] after each operation of the run: what
    [StrongCount] returns through any handle that points to [l]. *)
Fixpoint counts (l : nat) (ops : list op) (s : Store) : list (option Z) :=
  match ops with
  | [] => []
  | o :: rest =>
      match step o s with
      | Some (_, s') => ref_at l s' :: counts l rest s'
      | None => []
      end
  end.

(** [o] releases in [s]: it is a [Drop] through a handle with a pointer whose
    post-decrement count is zero (the branch [a.ptr = nil] of [Drop]). *)
Definition releases_at (o : op) (s : Store) : bool :=
  match o with
  | OpClone _ => false
  | OpDrop h =>
      match ptr_at h s, Drop h s with
      | Some (Some l), Some (_, s') => bool_decide (ref_at l s' = Some 0)
      | _, _ => false
      end
  end.

Fixpoint releases (ops : list op) (s : Store) : nat :=
  match ops with
  | [] => O
  | o :: rest =>
      ((if releases_at o s then 1 else 0) +
       match step o s with
       | Some (_, s') => releases rest s'
       | None => 0
       end)%nat
  end.

(** The store after [NewArc value] in the empty store: block 0 with count
    1 and handle 0 pointing to it. *)
Definition fresh_cell (value : T) : Store :=
  MkStore [ArcInternal value 1] [MkArc (Some O)] [].

(** The counting law of the specification for a run [ops] on a new cell:
    the final count is clones + 1 - drops, no count observed along the run is
    negative, and the cell is released exactly once if the final count is
    zero and never otherwise. *)
Definition count_law (value : T) (ops : list op) : Prop :=
  ∃ s, run ops (fresh_cell value) = Some (tt, s) ∧
       ref_at 0 s = Some (Z.of_nat (clones ops) + 1 - Z.of_nat (drops ops)) ∧
       Forall (λ oc, ∃ c, oc = Some c ∧ 0 ≤ c) (counts 0 ops (fresh_cell value)) ∧
       releases ops (fresh_cell value) =
         if decide (Z.of_nat (clones ops) + 1 - Z.of_nat (drops ops) = 0)
         then 1%nat else 0%nat.

(** Linear use of handles, as Rust's ownership would enforce it: every
    operation goes through a handle that is still owned, [Drop] gives the
    handle up and [Clone] yields the next address [next] as a new owned
    handle. *)
Fixpoint remove1 (h : nat) (live : list nat) : option (list nat) :=
  match live with
  | [] => None
  | x :: rest => if decide (x = h) then Some rest else cons x <$> remove1 h rest
  end.

Fixpoint linear (live : list nat) (next : nat) (ops : list op) : bool :=
  match ops with
  | [] => true
  | OpClone h :: rest => bool_decide (h ∈ live) && linear (next :: live) (S next) rest
  | OpDrop h :: rest =>
      match remove1 h live with
      | Some live' => linear live' next rest
      | None => false
      end
  end.

(** The store of a run under linear use: the handles in [live] all point
    to block 0, whose count is their number; [next] is the address that the
    next [Arc] struct receives. *)
Definition owned (live : list nat) (next : nat) (s : Store) (value : T) : Prop :=
  length (arcs s) = next ∧
  (∀ h, h ∈ live → arcs s !! h = Some (MkArc (Some O))) ∧
  blocks s !! O = Some (ArcInternal value (Z.of_nat (length live))).

(** ** Statements of the specification used below *)

(** A live strong handle: it points to a block whose count is at least 1. *)
Definition live_handle (a : nat) (s : Store) : Prop :=
  ∃ l v c, arcs s !! a = Some (MkArc (Some l)) ∧
           blocks s !! l = Some (ArcInternal v c) ∧ 1 ≤ c.

(** "After a drop whose post-decrement count is zero, the block is no
    longer reachable through any handle, including handles cloned before":
    no handle that pointed to the block before [Drop a] yields it on [Deref]
    afterwards. *)
Definition released_unreachable (a : nat) (s : Store) : Prop :=
  ∀ l s', ptr_at a s = Some (Some l) →
          Drop a s = Some (tt, s') →
          ref_at l s' = Some 0 →
          ∀ b, ptr_at b s = Some (Some l) → Deref b s' ≠ Some (Some l, s').

(** "[downgrade] leaves the count alone, and [upgrade] right after it
    succeeds with a handle to the same block and a count one higher". *)
Definition downgrade_upgrade_succeeds (a : nat) (s : Store) : Prop :=
  ∃ l c w s1 a' s2,
    ptr_at a s = Some (Some l) ∧ ref_at l s = Some c ∧
    Downgrade a s = Some (Some w, s1) ∧ ref_at l s1 = Some c ∧
    Upgrade w s1 = Some (Some a', s2) ∧
    ptr_at a' s2 = Some (Some l) ∧ ref_at l s2 = Some (c + 1).

(** An operation without result is a no-op in [s]. *)
Definition no_op (m : M unit) (s : Store) : Prop := m s = Some (tt, s).

End Arc.

Arguments arcInternal : clear implicits.
Arguments Store : clear implicits.
Arguments M : clear implicits.

Notation "'let!' x ':=' m 'in' k" := (bind m (λ x, k))
  (at level 10, x pattern, m at level 100, k at level 200, only parsing).
Notation "m ';;' k" := (bind m (λ _, k))
  (at level 100, k at level 200, right associativity, only parsing).

(** [MapArc] and [MergeArcs] read cells of type [T] in the store [s] and
    allocate their result in the store of the cells of the result type. *)
Definition MapArc {T U} (a : nat) (fn : T → U) (s : Store T) : M U (option nat) :=
  match get_ptr a s with
  | None => panic
  | Some (None, _) => ret None
  | Some (Some internal, _) =>
      match load_internal internal s with
      | None => panic
      | Some (b, _) => let! a' := NewArc (fn (data b)) in ret (Some a')
      end
  end.

Definition MergeArcs {T} (zero : T) (handles : list (option nat)) (s : Store T)
  : M (list T) nat :=
  match MergeArcs_values zero handles s with
  | None => panic
  | Some (values, _) => NewArc values
  end.

End arc.

(** ** Package [future]

    Time is a natural number.  A [futureImpl] is described by what it ends up
    holding: [done] is the instant at which the channel [done] is closed
    ([None]: it never is), [ctx] the instant at which its context is cancelled
    ([None]: never), [result] and [err] the fields once [done] is closed.  A
    Go function that may block on other futures is a [Blocking] computation:
    started at an instant, it returns a value and the instant at which it
    returns, or [None] when it blocks forever. *)

Module future.

Local Open Scope nat_scope.

(** [ctx.Err()] of a cancelled context. *)
Inductive error := Canceled.

Record futureImpl (T : Type) := FutureImpl {
  ctx : option nat;
  result : T;
  done : option nat;
  err : option error
}.
Arguments FutureImpl {T}.
Arguments ctx {T}.
Arguments result {T}.
Arguments done {T}.
Arguments err {T}.

Definition Blocking (A : Type) : Type := nat → option (A * nat).

Definition bret {A} (x : A) : Blocking A := λ now, Some (x, now).

Definition bbind {A B} (m : Blocking A) (k : A → Blocking B) : Blocking B :=
  λ now, match m now with
         | Some (x, t) => k x t
         | None => None
         end.

(** [<-ch] for a channel closed at instant [closed]. *)
Definition recv (closed : option nat) : Blocking unit :=
  λ now, match closed with
         | Some d => Some (tt, now `max` d)
         | None => None
         end.

(** [case <-ch:] of a [select] with a [default]: is the channel closed now? *)
Definition ready (closed : option nat) (now : nat) : bool :=
  match closed with
  | Some d => bool_decide (d ≤ now)
  | None => false
  end.

(** [context.WithCancel(parent)]: the child is done as soon as the parent
    is, or as soon as [cancel] is called (at instant [cancel], if ever). *)
Definition WithCancel (parent cancel : option nat) : option nat :=
  match parent, cancel with
  | Some p, Some c => Some (p `min` c)
  | Some p, None => Some p
  | None, c => c
  end.

(** [context.Background()] is never done. *)
Definition Background : option nat := None.

(** A [select] without [default], entered at [now], over receives from
    channels closed at the given instants: case [i] can proceed from the
    later of [now] and its instant on.  The [select] proceeds at the earliest
    instant at which some case can, with any one of the cases that can
    proceed then (Go chooses among them at random); it blocks forever when
    no channel is ever closed.  The result lists the possible outcomes: the
    index of the case taken and the instant. *)
Definition select_instant (now : nat) (cases : list (option nat)) : option nat :=
  foldr (λ c acc,
           match c, acc with
           | Some d, Some t => Some ((now `max` d) `min` t)
           | Some d, None => Some (now `max` d)
           | None, _ => acc
           end) None cases.

Definition can_proceed (now t : nat) (c : option nat) : bool :=
  match c with
  | Some d => bool_decide (now `max` d = t)
  | None => false
  end.

Definition select (now : nat) (cases : list (option nat)) : list (nat * nat) :=
  match select_instant now cases with
  | None => []
  | Some t =>
      omap id (imap (λ i c, if can_proceed now t c then Some (i, t) else None) cases)
  end.

(** [time.After(d)]: a channel that delivers [d] nanoseconds from now, at
    once when [d] is not positive. *)
Definition After (now : nat) (d : Z) : option nat := Some (now + Z.to_nat d).

Section Future.

Context {T : Type}.
(** The zero value of [T]: the content of [result] until it is assigned. *)
Variable zero : T.

(** [f.execute(fn)], run by a goroutine that starts at instant [start]. *)
Definition execute (c : option nat) (start : nat) (fn : Blocking T) : futureImpl T :=
  if ready c start
  then FutureImpl c zero (Some start) (Some Canceled)
  else match fn start with
       | Some (v, t) => FutureImpl c v (Some t) None
       | None => FutureImpl c zero None None
       end.

(** [cancel] is the instant at which [Cancel] is called on the new future
    (if ever), [start] the instant at which its goroutine starts. *)
Definition NewWithContext (parent cancel : option nat) (start : nat)
    (fn : Blocking T) : futureImpl T :=
  let childCtx := WithCancel parent cancel in
  execute childCtx start fn.

Definition New (cancel : option nat) (start : nat) (fn : Blocking T) : futureImpl T :=
  NewWithContext Background cancel start fn.

Definition Get (f : futureImpl T) : Blocking T :=
  bbind (recv (done f)) (λ _, bret (result f)).

Definition Error (f : futureImpl T) : Blocking (option error) :=
  bbind (recv (done f)) (λ _, bret (err f)).

Definition IsDone (f : futureImpl T) (now : nat) : bool := ready (done f) now.

(** The loop of [All]: [results[i] = f.Get()] for each future in turn. *)
Fixpoint All_loop (i : nat) (futures : list (futureImpl T)) (results : list T)
  : Blocking (list T) :=
  match futures with
  | [] => bret results
  | f :: rest =>
      bbind (Get f) (λ v, All_loop (S i) rest (<[i:=v]> results))
  end.

(** [GetWithTimeout]: the outcomes the [select] allows, each with the
    instant at which the call returns. *)
Definition GetWithTimeout (f : futureImpl T) (timeout : Z) (now : nat)
  : list ((T * bool) * nat) :=
  (λ '(i, t), match i with
              | O => ((result f, true), t)
              | _ => ((zero, false), t)
              end)
    <$> select now [done f; After now timeout; ctx f].

(** [Wait(timeout...)]: [timeout] is the variadic argument. *)
Definition Wait (f : futureImpl T) (timeout : list Z) (now : nat)
  : list (bool * nat) :=
  match timeout with
  | t0 :: _ =>
      (λ '(i, t), match i with
                  | O => (true, t)
                  | _ => (false, t)
                  end)
        <$> select now [done f; After now t0; ctx f]
  | [] =>
      match recv (done f) now with
      | Some (_, t) => [(true, t)]
      | None => []
      end
  end.

End Future.

Definition Then {T1 T2} (zero : T2) (cancel : option nat) (start : nat)
    (f : futureImpl T1) (fn : T1 → T2) : futureImpl T2 :=
  New zero cancel start
    (bbind (Get f) (λ result, bret (fn result))).

(** The zero value of [[]T] is the nil slice. *)
Definition All {T} (zero : T) (cancel : option nat) (start : nat)
    (futures : list (futureImpl T)) : futureImpl (list T) :=
  New [] cancel start
    (let results := replicate (length futures) zero in
     All_loop 0 futures results).

Definition Map {T R} (zero : R) (cancel : option nat) (start : nat)
    (f : futureImpl T) (fn : T → R) : futureImpl R :=
  New zero cancel start
    (bbind (Get f) (λ x, bret (fn x))).

(** [futureImpl2], the future of two results. *)
Record futureImpl2 (T1 T2 : Type) := FutureImpl2 {
  ctx2 : option nat;
  result1 : T1;
  result2 : T2;
  done2 : option nat;
  err2 : option error
}.
Arguments FutureImpl2 {T1 T2}.
Arguments ctx2 {T1 T2}.
Arguments result1 {T1 T2}.
Arguments result2 {T1 T2}.
Arguments done2 {T1 T2}.
Arguments err2 {T1 T2}.

Definition execute2 {T1 T2} (zero1 : T1) (zero2 : T2) (c : option nat) (start : nat)
    (fn : Blocking (T1 * T2)) : futureImpl2 T1 T2 :=
  if ready c start
  then FutureImpl2 c zero1 zero2 (Some start) (Some Canceled)
  else match fn start with
       | Some ((v1, v2), t) => FutureImpl2 c v1 v2 (Some t) None
       | None => FutureImpl2 c zero1 zero2 None None
       end.

Definition New2WithContext {T1 T2} (zero1 : T1) (zero2 : T2)
    (parent cancel : option nat) (start : nat) (fn : Blocking (T1 * T2))
  : futureImpl2 T1 T2 :=
  let childCtx := WithCancel parent cancel in
  execute2 zero1 zero2 childCtx start fn.

Definition New2 {T1 T2} (zero1 : T1) (zero2 : T2) (cancel : option nat) (start : nat)
    (fn : Blocking (T1 * T2)) : futureImpl2 T1 T2 :=
  New2WithContext zero1 zero2 Background cancel start fn.

Definition Get2 {T1 T2} (f : futureImpl2 T1 T2) : Blocking (T1 * T2) :=
  bbind (recv (done2 f)) (λ _, bret (result1 f, result2 f)).

Definition Then2 {T1 T2 R} (zero : R) (cancel : option nat) (start : nat)
    (f : futureImpl2 T1 T2) (fn : T1 → T2 → R) : futureImpl R :=
  New zero cancel start
    (bbind (Get2 f) (λ '(r1, r2), bret (fn r1 r2))).

(** A [futureImpl2] seen as a future of the pair of its results. *)
Definition paired {T1 T2} (f : futureImpl2 T1 T2) : futureImpl (T1 * T2) :=
  FutureImpl (ctx2 f) (result1 f, result2 f) (done2 f) (err2 f).

End future.

(** ** Package [option]: [Option] and [Result] as structs *)

Module opt.

Import stdpp.strings.
Local Open Scope string_scope.

(** The zero value of a Go type ([var zero T], a field left out of a
    struct literal). *)
Class Zero (T : Type) := zero_value : T.

(** A call that returns or panics with a message. *)
Inductive outcome (A : Type) :=
  | Returns (x : A)
  | Panics (msg : string).
Arguments Returns {A}.
Arguments Panics {A}.

(** Zero values of [int], [bool] and [string]. *)
#[global] Instance int_zero : Zero Z := 0%Z.
#[global] Instance bool_zero : Zero bool := false.
#[global] Instance string_zero : Zero string := "".

Record Option (T : Type) := MkOption { value : T; present : bool }.
Arguments MkOption {T}.
Arguments value {T}.
Arguments present {T}.

Record Result (T E : Type) := MkResult { res_value : T; res_err : E; ok : bool }.
Arguments MkResult {T E}.
Arguments res_value {T E}.
Arguments res_err {T E}.
Arguments ok {T E}.

(** The anonymous struct of [Zip] and [Unzip]. *)
Record Pair (T U : Type) := MkPair { First : T; Second : U }.
Arguments MkPair {T U}.
Arguments First {T U}.
Arguments Second {T U}.

#[global] Instance Option_zero {T} `{Zero T} : Zero (Option T) :=
  MkOption zero_value false.
#[global] Instance Result_zero {T E} `{Zero T} `{Zero E} : Zero (Result T E) :=
  MkResult zero_value zero_value false.
#[global] Instance Pair_zero {T U} `{Zero T} `{Zero U} : Zero (Pair T U) :=
  MkPair zero_value zero_value.

Section Option.

Context {T U E : Type} `{Zero T} `{Zero U} `{Zero E}.

Definition Option_IsSome (o : Option T) : bool := present o.
Definition Option_IsNone (o : Option T) : bool := negb (present o).

Definition Option_Unwrap (o : Option T) : outcome T :=
  if negb (present o) then Panics "called `Unwrap()` on a `None` value"
  else Returns (value o).

Definition Option_UnwrapOr (o : Option T) (defaultValue : T) : T :=
  if present o then value o else defaultValue.

Definition Option_UnwrapOrElse (o : Option T) (f : unit → T) : T :=
  if present o then value o else f tt.

Definition Option_Expect (o : Option T) (msg : string) : outcome T :=
  if negb (present o) then Panics msg else Returns (value o).

Definition Map (opt : Option T) (f : T → U) : Option U :=
  if negb (present opt) then MkOption zero_value false
  else MkOption (f (value opt)) true.

Definition MapOr (opt : Option T) (defaultValue : U) (f : T → U) : U :=
  if negb (present opt) then defaultValue else f (value opt).

Definition MapOrElse (opt : Option T) (defaultFn : unit → U) (f : T → U) : U :=
  if negb (present opt) then defaultFn tt else f (value opt).

Definition AndThen (opt : Option T) (f : T → Option U) : Option U :=
  if negb (present opt) then MkOption zero_value false else f (value opt).

Definition Or (opt other : Option T) : Option T :=
  if present opt then opt else other.

Definition OrElse (opt : Option T) (f : unit → Option T) : Option T :=
  if present opt then opt else f tt.

Definition And (opt other : Option T) : Option T :=
  if present opt then other else MkOption zero_value false.

Definition Filter (opt : Option T) (predicate : T → bool) : Option T :=
  if present opt && predicate (value opt) then opt
  else MkOption zero_value false.

Definition ToResult (opt : Option T) (err : E) : Result T E :=
  if present opt then MkResult (value opt) zero_value true
  else MkResult zero_value err false.

Definition Some_ (v : T) : Option T := MkOption v true.
Definition None_ : Option T := MkOption zero_value false.

Definition Result_IsOk (r : Result T E) : bool := ok r.
Definition Result_IsErr (r : Result T E) : bool := negb (ok r).

Definition Result_Unwrap (r : Result T E) : outcome T :=
  if negb (ok r) then Panics "called `Unwrap()` on an `Err` value"
  else Returns (res_value r).

Definition Result_UnwrapOr (r : Result T E) (defaultValue : T) : T :=
  if ok r then res_value r else defaultValue.

Definition Result_UnwrapOrElse (r : Result T E) (f : E → T) : T :=
  if ok r then res_value r else f (res_err r).

Definition Result_Expect (r : Result T E) (msg : string) : outcome T :=
  if negb (ok r) then Panics msg else Returns (res_value r).

Definition Result_UnwrapErr (r : Result T E) : outcome E :=
  if ok r then Panics "called `UnwrapErr()` on an `Ok` value"
  else Returns (res_err r).

Definition MapResult (res : Result T E) (f : T → U) : Result U E :=
  if negb (ok res) then MkResult zero_value (res_err res) false
  else MkResult (f (res_value res)) zero_value true.

Definition AndThenResult (res : Result T E) (f : T → Result U E) : Result U E :=
  if negb (ok res) then MkResult zero_value (res_err res) false
  else f (res_value res).

Definition Ok (v : T) : Result T E := MkResult v zero_value true.
Definition Err (err : E) : Result T E := MkResult zero_value err false.

Definition MatchOption (opt : Option T) (someFunc : T → U) (noneFunc : unit → U) : U :=
  if present opt then someFunc (value opt) else noneFunc tt.

Definition MatchResult (res : Result T E) (okFunc : T → U) (errFunc : E → U) : U :=
  if ok res then okFunc (res_value res) else errFunc (res_err res).

(** [FromPtr] and [ToPtr]: a [*T] is nil or points to a value. *)
Definition FromPtr (ptr : option T) : Option T :=
  match ptr with
  | Some v => MkOption v true
  | None => MkOption zero_value false
  end.

Definition ToPtr (opt : Option T) : option T :=
  if present opt then Some (value opt) else None.

Definition Flatten (opt : Option (Option T)) : Option T :=
  if present opt then value opt else MkOption zero_value false.

(** What the package produces: an absent [Option] carries the zero value,
    and a [Result] carries the zero value in the field it does not use. *)
Definition Option_canonical (o : Option T) : Prop :=
  present o = false → value o = zero_value.

Definition Result_canonical (r : Result T E) : Prop :=
  if ok r then res_err r = zero_value else res_value r = zero_value.

End Option.

(** Functions whose type arguments are not those of the section. *)
Definition MapErr {T E F} `{Zero T} `{Zero F} (res : Result T E) (f : E → F)
  : Result T F :=
  if negb (ok res) then MkResult zero_value (f (res_err res)) false
  else MkResult (res_value res) zero_value true.

Definition OrElseResult {T E F} `{Zero F} (res : Result T E) (f : E → Result T F)
  : Result T F :=
  if ok res then MkResult (res_value res) zero_value true
  else f (res_err res).

Definition Result_ToOption {T E} `{Zero T} (r : Result T E) : Option T :=
  if ok r then Some_ (res_value r) else None_.

Definition FromResult {T E} `{Zero T} (res : Result T E) : Option T :=
  if ok res then Some_ (res_value res) else None_.

Definition Zip {T U} `{Zero T} `{Zero U} (a : Option T) (b : Option U)
  : Option (Pair T U) :=
  if present a && present b then Some_ (MkPair (value a) (value b))
  else None_.

Definition Unzip {T U} `{Zero T} `{Zero U} (opt : Option (Pair T U))
  : Option T * Option U :=
  if present opt then (Some_ (First (value opt)), Some_ (Second (value opt)))
  else (None_, None_).

End opt.

(** ** Concrete stores and futures used in the examples *)

Module scenario.

Import arc future.

(** [a := NewArc(7); b := a.Clone(); b.Drop()]: handles 0 and 1 both point
    to block 0, whose count is back to 1. *)
Definition two_handles_one_count : Store Z :=
  MkStore [ArcInternal 7 1] [MkArc (Some O); MkArc (Some O)] [].

(** The same store after [a.Drop()]. *)
Definition two_handles_released : Store Z :=
  MkStore [ArcInternal 7 0] [MkArc None; MkArc (Some O)] [].

(** [a := NewArc(7); w := a.Downgrade()], and a [Weak{}] at address 1. *)
Definition sole_owner : Store Z :=
  MkStore [ArcInternal 7 1] [MkArc (Some O)] [MkWeak (Some O); MkWeak None].

(** The same store after [a.Drop()]. *)
Definition released : Store Z :=
  MkStore [ArcInternal 7 0] [MkArc None] [MkWeak (Some O); MkWeak None].

(** One handle to a block whose count is the largest [int64]. *)
Definition saturated : Store Z :=
  MkStore [ArcInternal 7 Int64.max_int] [MkArc (Some O)] [].

(** Two cells, [NewArc(7)] and [NewArc(8)], and a handle whose pointer
    is nil. *)
Definition two_cells : Store Z :=
  MkStore [ArcInternal 7 1; ArcInternal 8 1]
          [MkArc (Some O); MkArc (Some 1%nat); MkArc None] [MkWeak (Some O)].

(** [a := NewArc(7); w1 := a.Downgrade(); w2 := a.Downgrade(); a.Drop()]:
    two weak handles to a block that has been released. *)
Definition released_two_weaks : Store Z :=
  MkStore [ArcInternal 7 0] [MkArc None] [MkWeak (Some O); MkWeak (Some O)].

(** The callback that stores the count it reads through handle [a] into
    the value: [p] receives the result of [a.StrongCount()]. *)
Definition record_count (a : nat) (p : nat) : M Z unit :=
  let! n := StrongCount a in
  call_on_data (λ _, n) p.

(** "[With] increments the count before invoking [fn] and decrements it
    afterward, so that after [With] the count equals its value before the
    call", for the callback [record_count]: it has stored the count plus one,
    and the count is as before. *)
Definition with_brackets (a : nat) (s : Store Z) : Prop :=
  ∃ c s', StrongCount a s = Some (c, s) ∧
          With a (record_count a) s = Some (true, s') ∧
          (let! p := Deref a in load_data p) s' = Some (c + 1, s') ∧
          StrongCount a s' = Some (c, s').

(** Three futures of which the second completes first (at 1), then the
    third (at 2), then the first (at 3). *)
Definition t1 : futureImpl Z := FutureImpl None 10 (Some 3%nat) None.
Definition t2 : futureImpl Z := FutureImpl None 20 (Some 1%nat) None.
Definition t3 : futureImpl Z := FutureImpl None 30 (Some 2%nat) None.

(** A future that completed at instant 2 and was cancelled at instant 4,
    and one that is still running at every instant. *)
Definition t_cancelled_late : futureImpl Z := FutureImpl (Some 4%nat) 10 (Some 2%nat) None.
Definition t_running : futureImpl Z := FutureImpl None 0 None None.

End scenario.

(** * Properties *)

Section Int64Facts.

Import Int64.

Lemma wrap_id z : in_range z → wrap z = z.
Proof.
  unfold in_range, wrap, min_int, max_int. intros H.
  rewrite Z.mod_small; lia.
Qed.

Lemma wrap_range z : in_range (wrap z).
Proof.
  unfold in_range, wrap, min_int, max_int.
  pose proof (Z.mod_pos_bound (z + 2 ^ 63) (2 ^ 64)). lia.
Qed.

Lemma wrap_succ_pred z : in_range z → wrap (wrap (z + 1) + -1) = z.
Proof.
  unfold in_range, wrap, min_int, max_int. intros H.
  replace ((z + 1 + 2 ^ 63) `mod` 2 ^ 64 - 2 ^ 63 + -1 + 2 ^ 63)
    with ((z + 1 + 2 ^ 63) `mod` 2 ^ 64 - 1) by lia.
  destruct (decide (z = 2 ^ 63 - 1)) as [->|Hne].
  - reflexivity.
  - rewrite (Z.mod_small (z + 1 + 2 ^ 63)) by lia.
    rewrite Z.mod_small; lia.
Qed.

Lemma wrap_max_succ : wrap (max_int + 1) = min_int.
Proof. reflexivity. Qed.

End Int64Facts.

Import arc.

Section ArcFacts.

Context {T : Type}.
Variable zero : T.
Implicit Type s : Store T.
Implicit Type v : T.

(** ** Equations of the primitives *)

Lemma store_eta s : MkStore (blocks s) (arcs s) (weaks s) = s.
Proof. by destruct s. Qed.

Lemma load_internal_eq s l b :
  blocks s !! l = Some b → load_internal l s = Some (b, s).
Proof. unfold load_internal. by intros ->. Qed.

Lemma store_internal_eq s l b b0 :
  blocks s !! l = Some b0 →
  store_internal l b s = Some (tt, MkStore (<[l:=b]> (blocks s)) (arcs s) (weaks s)).
Proof. unfold store_internal. by intros ->. Qed.

Lemma get_ptr_eq s a p :
  arcs s !! a = Some (MkArc p) → get_ptr a s = Some (p, s).
Proof. unfold get_ptr. by intros ->. Qed.

Lemma set_ptr_eq s a p x :
  arcs s !! a = Some x →
  set_ptr a p s = Some (tt, MkStore (blocks s) (<[a:=MkArc p]> (arcs s)) (weaks s)).
Proof. unfold set_ptr. by intros ->. Qed.

Lemma get_wptr_eq s w p :
  weaks s !! w = Some (MkWeak p) → get_wptr w s = Some (p, s).
Proof. unfold get_wptr. by intros ->. Qed.

Lemma atomic_LoadInt64_eq s l v c :
  blocks s !! l = Some (ArcInternal v c) → atomic_LoadInt64 l s = Some (c, s).
Proof.
  intros H. unfold atomic_LoadInt64, bind. by rewrite (load_internal_eq _ _ _ H).
Qed.

Lemma atomic_AddInt64_eq s l v c delta :
  blocks s !! l = Some (ArcInternal v c) →
  atomic_AddInt64 l delta s =
    Some (Int64.wrap (c + delta),
          MkStore (<[l:=ArcInternal v (Int64.wrap (c + delta))]> (blocks s))
                  (arcs s) (weaks s)).
Proof.
  intros H. unfold atomic_AddInt64, bind.
  rewrite (load_internal_eq _ _ _ H). simpl.
  by rewrite (store_internal_eq _ _ _ _ H).
Qed.

Lemma atomic_CompareAndSwapInt64_eq s l v c old new :
  blocks s !! l = Some (ArcInternal v c) →
  atomic_CompareAndSwapInt64 l old new s =
    if decide (c = old)
    then Some (true, MkStore (<[l:=ArcInternal v new]> (blocks s)) (arcs s) (weaks s))
    else Some (false, s).
Proof.
  intros H. unfold atomic_CompareAndSwapInt64, bind.
  rewrite (load_internal_eq _ _ _ H). simpl.
  case_decide; [|done]. by rewrite (store_internal_eq _ _ _ _ H).
Qed.

Lemma lookup_insert_here {A} (l : list A) i x y :
  l !! i = Some y → <[i:=x]> l !! i = Some x.
Proof. intros H. apply list_lookup_insert_eq. eapply lookup_lt_Some, H. Qed.

Lemma insert_insert_here {A} (l : list A) i x y :
  <[i:=x]> (<[i:=y]> l) = <[i:=x]> l.
Proof. apply list_insert_insert_eq. Qed.

(** [StrongCount] through a handle with a pointer reads the block's count. *)
Lemma StrongCount_eq s a l v c :
  arcs s !! a = Some (MkArc (Some l)) →
  blocks s !! l = Some (ArcInternal v c) →
  StrongCount a s = Some (c, s).
Proof.
  intros Ha Hl. unfold StrongCount, bind. rewrite (get_ptr_eq _ _ _ Ha).
  by apply atomic_LoadInt64_eq with v.
Qed.

Lemma Drop_eq s a l v c :
  arcs s !! a = Some (MkArc (Some l)) →
  blocks s !! l = Some (ArcInternal v c) →
  Drop a s =
    Some (tt, MkStore (<[l:=ArcInternal v (Int64.wrap (c + -1))]> (blocks s))
                      (if decide (Int64.wrap (c + -1) = 0)
                       then <[a:=MkArc None]> (arcs s) else arcs s)
                      (weaks s)).
Proof.
  intros Ha Hl. unfold Drop, bind. rewrite (get_ptr_eq _ _ _ Ha).
  rewrite (atomic_AddInt64_eq _ _ _ _ _ Hl).
  case_decide; [|done]. by erewrite set_ptr_eq.
Qed.

Lemma Clone_eq s a l v c :
  arcs s !! a = Some (MkArc (Some l)) →
  blocks s !! l = Some (ArcInternal v c) →
  Clone a s =
    Some (Some (length (arcs s)),
          MkStore (<[l:=ArcInternal v (Int64.wrap (c + 1))]> (blocks s))
                  (arcs s ++ [MkArc (Some l)]) (weaks s)).
Proof.
  intros Ha Hl. unfold Clone, bind. rewrite (get_ptr_eq _ _ _ Ha).
  by rewrite (atomic_AddInt64_eq _ _ _ _ _ Hl).
Qed.

Lemma Deref_eq s a p :
  arcs s !! a = Some (MkArc p) → Deref a s = Some (p, s).
Proof.
  intros Ha. unfold Deref, bind. rewrite (get_ptr_eq _ _ _ Ha). by destruct p.
Qed.

Lemma load_data_eq s l v c :
  blocks s !! l = Some (ArcInternal v c) → load_data (Some l) s = Some (v, s).
Proof.
  intros Hl. unfold load_data, bind. by rewrite (load_internal_eq _ _ _ Hl).
Qed.

(** ** [TryUnwrap] and [CompareAndSwap]: sole ownership *)

(** C3. Through a handle that points to a block, [TryUnwrap] returns within
    one round of its loop.  It succeeds exactly when the count is 1: the
    count goes from 1 to 0, the contained value is returned and the handle's
    pointer becomes nil.  Otherwise it returns the zero value and [false],
    and the store (the handle and the count) is unchanged. *)
Theorem TryUnwrap_sole_owner fuel a l v c s :
  arcs s !! a = Some (MkArc (Some l)) →
  blocks s !! l = Some (ArcInternal v c) →
  (c = 1 →
     TryUnwrap zero (S fuel) a s =
       Some (Some (v, true),
             MkStore (<[l:=ArcInternal v 0]> (blocks s))
                     (<[a:=MkArc None]> (arcs s)) (weaks s)))
  ∧ (c ≠ 1 → TryUnwrap zero (S fuel) a s = Some (Some (zero, false), s)).
Proof.
  intros Ha Hl.
  unfold TryUnwrap, bind. rewrite (get_ptr_eq _ _ _ Ha). simpl.
  unfold bind. rewrite (atomic_LoadInt64_eq _ _ _ _ Hl).
  split; intros Hc.
  - subst c. rewrite decide_False by (intros ?; done).
    rewrite (atomic_CompareAndSwapInt64_eq _ _ _ _ _ _ Hl).
    rewrite decide_True by done.
    erewrite load_internal_eq by (simpl; eapply lookup_insert_here, Hl).
    simpl. by erewrite set_ptr_eq by (simpl; apply Ha).
  - by rewrite decide_True.
Qed.

(** C6. Through a handle that points to a block, [CompareAndSwap] stores
    [newValue] and returns [true] exactly when the count is 1; otherwise it
    returns [false] and changes nothing.  [oldValue] plays no part. *)
Theorem CompareAndSwap_sole_owner a l v c oldValue newValue s :
  arcs s !! a = Some (MkArc (Some l)) →
  blocks s !! l = Some (ArcInternal v c) →
  (c = 1 →
     CompareAndSwap a oldValue newValue s =
       Some (true, MkStore (<[l:=ArcInternal newValue 1]> (blocks s))
                           (arcs s) (weaks s)))
  ∧ (c ≠ 1 → CompareAndSwap a oldValue newValue s = Some (false, s))
  ∧ (∀ expected, CompareAndSwap a expected newValue s =
                 CompareAndSwap a oldValue newValue s).
Proof.
  intros Ha Hl.
  unfold CompareAndSwap, bind. rewrite (get_ptr_eq _ _ _ Ha).
  rewrite (atomic_LoadInt64_eq _ _ _ _ Hl).
  split; [|split]; [intros Hc|intros Hc|done].
  - subst c. rewrite decide_False by (intros ?; done).
    rewrite (load_internal_eq _ _ _ Hl). simpl.
    by rewrite (store_internal_eq _ _ _ _ Hl).
  - by rewrite decide_True.
Qed.

(** ** [Upgrade] *)

(** One call of [Upgrade] through a weak handle whose block has count 0,
    run to its end with no other call in between, increments the count to 1,
    finds it not above 1, rolls the increment back and returns nil: the
    store is as before, with the count at 0. *)
Lemma Upgrade_released w l v s :
  weaks s !! w = Some (MkWeak (Some l)) →
  blocks s !! l = Some (ArcInternal v 0) →
  Upgrade w s = Some (None, s) ∧
  ∃ s1, atomic_AddInt64 l 1 s = Some (1, s1) ∧
        atomic_AddInt64 l (-1) s1 = Some (0, s) ∧
        ref_at l s = Some 0.
Proof.
  intros Hw Hl.
  pose proof (atomic_AddInt64_eq _ _ _ _ 1 Hl) as Hadd.
  change (Int64.wrap (0 + 1)) with 1 in Hadd.
  set (s1 := MkStore (<[l:=ArcInternal v 1]> (blocks s)) (arcs s) (weaks s)) in *.
  assert (Hl1 : blocks s1 !! l = Some (ArcInternal v 1)).
  { simpl. eapply lookup_insert_here, Hl. }
  pose proof (atomic_AddInt64_eq _ _ _ _ (-1) Hl1) as Hsub.
  change (Int64.wrap (1 + -1)) with 0 in Hsub.
  assert (Hback : MkStore (<[l:=ArcInternal v 0]> (blocks s1)) (arcs s1) (weaks s1) = s).
  { simpl. rewrite insert_insert_here, (list_insert_id _ _ _ Hl). apply store_eta. }
  rewrite Hback in Hsub.
  split.
  - unfold Upgrade, bind. rewrite (get_wptr_eq _ _ _ Hw).
    rewrite Hadd. rewrite decide_False by lia. by rewrite Hsub.
  - exists s1. split; [done|]. split; [done|].
    unfold ref_at. by rewrite Hl.
Qed.

(** [Upgrade] is its two parts run one after the other. *)
Lemma Upgrade_split w s :
  Upgrade w s = (let! pending := Upgrade_begin w in Upgrade_end pending) s.
Proof.
  unfold Upgrade, Upgrade_begin, Upgrade_end, bind.
  destruct (get_wptr w s) as [[[l|] s0]|]; [|done|done].
  by destruct (atomic_AddInt64 l 1 s0) as [[current s1]|].
Qed.

(** C4, as the code has it. On a block whose count is 0, two calls of
    [Upgrade] that run one after the other both return nil and leave the
    store as it is.  When the increment of the second call falls between the
    increment and the test of the first, the second call reads 2, which is
    above 1, and returns a new strong handle to the released block; the
    first call reads 1, rolls back and returns nil; the count is left at
    1. *)
Theorem Upgrade_released_interleaved w1 w2 l v s :
  weaks s !! w1 = Some (MkWeak (Some l)) →
  weaks s !! w2 = Some (MkWeak (Some l)) →
  blocks s !! l = Some (ArcInternal v 0) →
  (let! r1 := Upgrade w1 in
   let! r2 := Upgrade w2 in
   ret (r1, r2)) s = Some ((None, None), s) ∧
  (let! p1 := Upgrade_begin w1 in
   let! p2 := Upgrade_begin w2 in
   let! r2 := Upgrade_end p2 in
   let! r1 := Upgrade_end p1 in
   ret (r1, r2)) s =
    Some ((None, Some (length (arcs s))),
          MkStore (<[l:=ArcInternal v 1]> (blocks s))
                  (arcs s ++ [MkArc (Some l)]) (weaks s)).
Proof.
  intros Hw1 Hw2 Hl.
  split.
  - unfold bind.
    destruct (Upgrade_released w1 l v s Hw1 Hl) as [-> _].
    by destruct (Upgrade_released w2 l v s Hw2 Hl) as [-> _].
  - pose proof (atomic_AddInt64_eq _ _ _ _ 1 Hl) as Hadd1.
    change (Int64.wrap (0 + 1)) with 1 in Hadd1.
    set (s1 := MkStore (<[l:=ArcInternal v 1]> (blocks s)) (arcs s) (weaks s)) in *.
    assert (Hl1 : blocks s1 !! l = Some (ArcInternal v 1)).
    { simpl. eapply lookup_insert_here, Hl. }
    pose proof (atomic_AddInt64_eq _ _ _ _ 1 Hl1) as Hadd2.
    change (Int64.wrap (1 + 1)) with 2 in Hadd2.
    set (s2 := MkStore (<[l:=ArcInternal v 2]> (blocks s1)) (arcs s1) (weaks s1)) in *.
    set (s3 := MkStore (blocks s2) (arcs s2 ++ [MkArc (Some l)]) (weaks s2)).
    assert (Hl3 : blocks s3 !! l = Some (ArcInternal v 2)).
    { simpl. rewrite insert_insert_here. eapply lookup_insert_here, Hl. }
    pose proof (atomic_AddInt64_eq _ _ _ _ (-1) Hl3) as Hsub.
    change (Int64.wrap (2 + -1)) with 1 in Hsub.
    unfold Upgrade_begin, Upgrade_end, bind, ret.
    rewrite (get_wptr_eq _ _ _ Hw1). rewrite Hadd1. cbv beta iota.
    rewrite (get_wptr_eq s1 _ _ Hw2). rewrite Hadd2. cbv beta iota.
    rewrite decide_True by lia. unfold new_Arc. cbv beta iota. fold s3.
    rewrite decide_False by lia. rewrite Hsub.
    simpl. by rewrite !insert_insert_here.
Qed.

(** ** [With] *)

(** C9, as the code has it. Through a live handle whose count [c] is below
    the largest [int64], [With] increments the count to [c + 1], runs [fn] on
    [&internal.data] in that store (so that [StrongCount] read by [fn] is
    [c + 1]), then calls [Drop] on the handle and returns [true].  When [fn]
    returns with the handle still pointing to the block and the count as it
    found it, whatever it did to the value, the count after [With] is [c]
    again and the handle keeps its pointer; that is so for every callback
    that only reads and overwrites the value, and [With] then leaves the
    blocks as [Clone], the callback and [Drop] of the clone leave them.  A
    [Drop] through any handle to the block while [fn] runs does not release
    it. *)
Theorem With_bracket a l v c (fn : nat → M T unit) s :
  arcs s !! a = Some (MkArc (Some l)) →
  blocks s !! l = Some (ArcInternal v c) →
  1 ≤ c < Int64.max_int →
  ∃ s1,
    atomic_AddInt64 l 1 s = Some (c + 1, s1) ∧
    s1 = MkStore (<[l:=ArcInternal v (c + 1)]> (blocks s)) (arcs s) (weaks s) ∧
    StrongCount a s1 = Some (c + 1, s1) ∧
    With a fn s = (fn l;; Drop a;; ret true) s1 ∧
    (∀ v' s2, fn l s1 = Some (tt, s2) →
       arcs s2 !! a = Some (MkArc (Some l)) →
       blocks s2 !! l = Some (ArcInternal v' (c + 1)) →
       ∃ s3, Drop a s2 = Some (tt, s3) ∧
             With a fn s = Some (true, s3) ∧
             s3 = MkStore (<[l:=ArcInternal v' c]> (blocks s2)) (arcs s2) (weaks s2) ∧
             ref_at l s3 = Some c ∧
             ptr_at a s3 = Some (Some l)) ∧
    (∀ f : T → T,
       With a (call_on_data f) s =
         Some (true, MkStore (<[l:=ArcInternal (f v) c]> (blocks s)) (arcs s) (weaks s)) ∧
       ∃ a' sa sb sc,
         Clone a s = Some (Some a', sa) ∧
         call_on_data f l sa = Some (tt, sb) ∧
         Drop a' sb = Some (tt, sc) ∧
         blocks sc = <[l:=ArcInternal (f v) c]> (blocks s)) ∧
    (∀ b, arcs s !! b = Some (MkArc (Some l)) →
       ∃ s2, Drop b s1 = Some (tt, s2) ∧
             ref_at l s2 = Some c ∧
             ptr_at b s2 = Some (Some l) ∧
             ptr_at a s2 = Some (Some l)).
Proof.
  intros Ha Hl Hc.
  assert (Hup : Int64.wrap (c + 1) = c + 1).
  { apply wrap_id. unfold Int64.in_range, Int64.min_int, Int64.max_int in *. lia. }
  assert (Hdown : Int64.wrap (c + 1 + -1) = c).
  { replace (c + 1 + -1) with c by lia. apply wrap_id.
    unfold Int64.in_range, Int64.min_int, Int64.max_int in *. lia. }
  pose proof (atomic_AddInt64_eq _ _ _ _ 1 Hl) as Hadd. rewrite Hup in Hadd.
  set (s1 := MkStore (<[l:=ArcInternal v (c + 1)]> (blocks s)) (arcs s) (weaks s)) in *.
  assert (Hl1 : blocks s1 !! l = Some (ArcInternal v (c + 1))).
  { simpl. eapply lookup_insert_here, Hl. }
  assert (Hwith : ∀ g : nat → M T unit, With a g s = (g l;; Drop a;; ret true) s1).
  { intros g. unfold With, bind. rewrite (get_ptr_eq _ _ _ Ha). by rewrite Hadd. }
  assert (Hdrop : ∀ b v' s2, arcs s2 !! b = Some (MkArc (Some l)) →
            blocks s2 !! l = Some (ArcInternal v' (c + 1)) →
            Drop b s2 =
              Some (tt, MkStore (<[l:=ArcInternal v' c]> (blocks s2)) (arcs s2) (weaks s2))).
  { intros b v' s2 Hb Hl2. rewrite (Drop_eq s2 b l _ _ Hb Hl2). rewrite Hdown.
    by rewrite decide_False by lia. }
  exists s1. split; [done|]. split; [done|].
  split. { by apply (StrongCount_eq s1 a l v). }
  split; [apply Hwith|].
  split.
  { intros v' s2 Hfn Ha2 Hl2. eexists. split; [by apply Hdrop|].
    split. { rewrite Hwith. unfold bind. rewrite Hfn. by rewrite (Hdrop a v' s2). }
    split; [done|]. split.
    - unfold ref_at. simpl. by erewrite lookup_insert_here by apply Hl2.
    - unfold ptr_at. simpl. by rewrite Ha2. }
  split.
  { intros f.
    assert (Hcall : ∀ s0 : Store T, blocks s0 = blocks s1 →
              call_on_data f l s0 =
                Some (tt, MkStore (<[l:=ArcInternal (f v) (c + 1)]> (blocks s))
                                  (arcs s0) (weaks s0))).
    { intros s0 Hs0. unfold call_on_data, bind.
      assert (Hl0 : blocks s0 !! l = Some (ArcInternal v (c + 1))) by by rewrite Hs0.
      rewrite (load_internal_eq _ _ _ Hl0). rewrite (store_internal_eq _ _ _ _ Hl0).
      rewrite Hs0. simpl. by rewrite insert_insert_here. }
    split.
    - rewrite Hwith. unfold bind. rewrite (Hcall s1 eq_refl).
      erewrite Hdrop; [|exact Ha|simpl; eapply lookup_insert_here, Hl].
      simpl. by rewrite insert_insert_here.
    - eexists _, _, _, _.
      split. { rewrite (Clone_eq _ _ _ _ _ Ha Hl). rewrite Hup. reflexivity. }
      split. { apply Hcall. reflexivity. }
      split.
      { apply Hdrop.
        - simpl. rewrite lookup_app_r by done.
          by rewrite Nat.sub_diag.
        - simpl. eapply lookup_insert_here, Hl. }
      simpl. by rewrite insert_insert_here. }
  intros b Hb. eexists. split; [by apply (Hdrop b v s1)|].
  split; [|split].
  - unfold ref_at. simpl. rewrite insert_insert_here.
    by erewrite lookup_insert_here by apply Hl.
  - unfold ptr_at. simpl. by rewrite Hb.
  - unfold ptr_at. simpl. by rewrite Ha.
Qed.

(** ** [Drop] reaching zero *)

Lemma ptr_at_Some s a p :
  ptr_at a s = Some p ↔ arcs s !! a = Some (MkArc p).
Proof.
  unfold ptr_at. destruct (arcs s !! a) as [[q]|]; simpl; split; intros H;
    by simplify_eq.
Qed.

Lemma ref_at_Some s l c :
  ref_at l s = Some c ↔ ∃ v, blocks s !! l = Some (ArcInternal v c).
Proof.
  unfold ref_at. destruct (blocks s !! l) as [[v d]|]; simpl; split.
  - intros H. simplify_eq. by exists v.
  - intros [v' H]. by simplify_eq.
  - done.
  - by intros [v' H].
Qed.

(** C1, as the code has it. A [Drop] whose post-decrement count is zero
    sets the pointer of the handle it was called on to nil, so that [Deref]
    and [StrongCount] through that handle return nil and 0.  Every other
    [Arc] struct is left as it is: a handle that still points to the block
    yields the block on [Deref], the stored value is still there to be read
    through it, and [StrongCount] through it returns 0. *)
Theorem Drop_to_zero_clears_own_pointer a l s s' :
  ptr_at a s = Some (Some l) →
  Drop a s = Some (tt, s') →
  ref_at l s' = Some 0 →
  Deref a s' = Some (None, s') ∧
  StrongCount a s' = Some (0, s') ∧
  ∃ v, data_at l s = Some v ∧ data_at l s' = Some v ∧
       ∀ b, b ≠ a →
            arcs s' !! b = arcs s !! b ∧
            (ptr_at b s = Some (Some l) →
               Deref b s' = Some (Some l, s') ∧
               load_data (Some l) s' = Some (v, s') ∧
               StrongCount b s' = Some (0, s')).
Proof.
  intros Ha%ptr_at_Some Hdrop Hzero.
  destruct (blocks s !! l) as [[v c]|] eqn:Hl; last first.
  { unfold Drop, bind in Hdrop. rewrite (get_ptr_eq _ _ _ Ha) in Hdrop.
    unfold atomic_AddInt64, bind, load_internal in Hdrop. by rewrite Hl in Hdrop. }
  rewrite (Drop_eq _ _ _ _ _ Ha Hl) in Hdrop.
  injection Hdrop as <-.
  assert (Hw : Int64.wrap (c + -1) = 0).
  { unfold ref_at in Hzero. simpl in Hzero.
    erewrite lookup_insert_here in Hzero by apply Hl. simpl in Hzero. congruence. }
  rewrite Hw. rewrite decide_True by done.
  assert (Ha' : <[a:=MkArc None]> (arcs s) !! a = Some (MkArc None)).
  { eapply lookup_insert_here, Ha. }
  assert (Hl' : <[l:=ArcInternal v 0]> (blocks s) !! l = Some (ArcInternal v 0)).
  { eapply lookup_insert_here, Hl. }
  split. { by apply Deref_eq. }
  split. { unfold StrongCount, bind. by erewrite get_ptr_eq by (simpl; apply Ha'). }
  exists v. split. { unfold data_at. by rewrite Hl. }
  split. { unfold data_at. simpl. by rewrite Hl'. }
  intros b Hb. simpl.
  rewrite list_lookup_insert_ne by done.
  split; [done|]. intros Hpb%ptr_at_Some.
  split. { apply Deref_eq. simpl. by rewrite list_lookup_insert_ne. }
  split. { by apply load_data_eq with 0. }
  apply StrongCount_eq with l v; simpl; [by rewrite list_lookup_insert_ne|done].
Qed.

(** ** [Downgrade] followed by [Upgrade] *)

(** C5, as the code has it. For a live handle whose count is below the
    largest [int64], [Downgrade] leaves the count alone and [Upgrade] of the
    weak handle right after it returns a new handle to the same block, the
    count being one higher. *)
Theorem Downgrade_then_Upgrade a l v c s :
  arcs s !! a = Some (MkArc (Some l)) →
  blocks s !! l = Some (ArcInternal v c) →
  1 ≤ c < Int64.max_int →
  downgrade_upgrade_succeeds a s.
Proof.
  intros Ha Hl Hc.
  assert (Hw : Int64.wrap (c + 1) = c + 1).
  { apply wrap_id. unfold Int64.in_range, Int64.min_int, Int64.max_int in *. lia. }
  set (s1 := MkStore (blocks s) (arcs s) (weaks s ++ [MkWeak (Some l)])).
  set (s2 := MkStore (<[l:=ArcInternal v (c + 1)]> (blocks s))
                     (arcs s ++ [MkArc (Some l)])
                     (weaks s ++ [MkWeak (Some l)])).
  exists l, c, (length (weaks s)), s1, (length (arcs s)), s2.
  split. { by apply ptr_at_Some. }
  split. { apply ref_at_Some. by exists v. }
  split. { unfold Downgrade, bind. by rewrite (get_ptr_eq _ _ _ Ha). }
  split. { apply ref_at_Some. by exists v. }
  split.
  { unfold Upgrade, bind.
    erewrite get_wptr_eq by (simpl; apply list_lookup_middle; done).
    cbv beta iota. rewrite (atomic_AddInt64_eq s1 l v c 1 Hl). rewrite Hw.
    by rewrite decide_True by lia. }
  split.
  - apply ptr_at_Some. simpl. by apply list_lookup_middle.
  - apply ref_at_Some. exists v. simpl. eapply lookup_insert_here, Hl.
Qed.

(** At the largest count the increment of [Upgrade] wraps around, and the
    upgrade fails. *)
Lemma Upgrade_saturated_fails s a l v :
  arcs s !! a = Some (MkArc (Some l)) →
  blocks s !! l = Some (ArcInternal v Int64.max_int) →
  ¬ downgrade_upgrade_succeeds a s.
Proof.
  intros Ha Hl (l' & c & w & s1 & a' & s2 & Hp & _ & Hd & _ & Hu & _).
  unfold Downgrade, bind in Hd. rewrite (get_ptr_eq _ _ _ Ha) in Hd.
  simpl in Hd. injection Hd as <- <-.
  unfold Upgrade, bind in Hu.
  erewrite get_wptr_eq in Hu by (simpl; apply list_lookup_middle; done).
  cbv beta iota in Hu.
  erewrite atomic_AddInt64_eq in Hu by (simpl; apply Hl).
  rewrite wrap_max_succ in Hu.
  rewrite decide_False in Hu by (unfold Int64.min_int; lia).
  erewrite atomic_AddInt64_eq in Hu by (simpl; eapply lookup_insert_here, Hl).
  discriminate Hu.
Qed.

(** ** Handles whose pointer is nil *)

(** C10, as the code has it. Through an [Arc] whose pointer is nil every
    method returns without touching any block and leaves the store as it
    is: the result is nil, [false], 0 or the zero value, nothing for [Drop],
    [MemoryBarrier] and [Swap], and [true] for [IsNil]; [With] does not call
    [fn].  [Reset] is the one method that is not a no-op: it allocates a new
    block with count 1 and points the handle to it.  Through a [Weak] whose
    pointer is nil, [Upgrade] returns nil and leaves the store as it is. *)
Theorem nil_pointer_methods fuel v v' (fn : nat → M T unit)
    {U : Type} (g : T → U) (su : Store U) s :
  (∀ a other,
     arcs s !! a = Some (MkArc None) →
     Clone a s = Some (None, s) ∧
     Deref a s = Some (None, s) ∧
     StrongCount a s = Some (0, s) ∧
     Drop a s = Some (tt, s) ∧
     GetMut a s = Some (None, s) ∧
     TryUnwrap zero fuel a s = Some (Some (zero, false), s) ∧
     Downgrade a s = Some (None, s) ∧
     With a fn s = Some (false, s) ∧
     MapArc a g s su = Some (None, su) ∧
     MemoryBarrier a s = Some (tt, s) ∧
     CompareAndSwap a v v' s = Some (false, s) ∧
     Swap a other s = Some (tt, s) ∧
     AsRef a s = Some (None, s) ∧
     UnsafeRawPtr a s = Some (None, s) ∧
     IsNil a s = Some (true, s) ∧
     Reset a v s =
       Some (tt, MkStore (blocks s ++ [ArcInternal v 1])
                         (<[a:=MkArc (Some (length (blocks s)))]> (arcs s))
                         (weaks s))) ∧
  (∀ w, weaks s !! w = Some (MkWeak None) → Upgrade w s = Some (None, s)).
Proof.
  split.
  - intros a other Ha.
    pose proof (get_ptr_eq _ _ _ Ha) as Hp.
    unfold Clone, Deref, StrongCount, Drop, GetMut, TryUnwrap, Downgrade,
      With, MapArc, MemoryBarrier, CompareAndSwap, Swap, AsRef, UnsafeRawPtr,
      IsNil, Reset, Drop, bind.
    rewrite Hp. simpl.
    repeat split.
    unfold set_ptr. simpl. by rewrite Ha.
  - intros w Hw. unfold Upgrade, bind. by rewrite (get_wptr_eq _ _ _ Hw).
Qed.

(** ** Runs of [Clone] and [Drop] under linear use *)

Lemma remove1_Some h live live' :
  remove1 h live = Some live' →
  h ∈ live ∧ length live = S (length live') ∧ ∀ x, x ∈ live' → x ∈ live.
Proof.
  revert live'. induction live as [|x rest IH]; intros live' H; simpl in H.
  - done.
  - case_decide as Hx.
    + simplify_eq. split; [left|]. split; [done|]. intros y Hy. by right.
    + destruct (remove1 h rest) as [k|] eqn:Hk; simpl in H; [|done].
      simplify_eq. destruct (IH k eq_refl) as (Hin & Hlen & Hsub).
      split; [by right|]. split; [simpl; lia|].
      intros y [->|Hy]%elem_of_cons; [left|right; auto].
Qed.

Lemma linear_nil next ops : linear [] next ops = true → ops = [].
Proof.
  destruct ops as [|[h|h] rest]; [done| |done].
  intros [Hh%bool_decide_eq_true _]%andb_prop.
  by apply not_elem_of_nil in Hh.
Qed.

Lemma owned_ref live next s v :
  owned live next s v → ref_at 0 s = Some (Z.of_nat (length live)).
Proof. intros (_ & _ & Hb). unfold ref_at. by rewrite Hb. Qed.

Lemma step_clone live next s v h :
  owned live next s v →
  h ∈ live →
  Z.of_nat (length live) < Int64.max_int →
  ∃ s', step (OpClone h) s = Some (tt, s') ∧ owned (next :: live) (S next) s' v.
Proof.
  intros (Hlen & Hlive & Hb) Hh Hmax.
  eexists. split.
  - unfold step, bind. by rewrite (Clone_eq _ _ _ _ _ (Hlive h Hh) Hb).
  - rewrite wrap_id
      by (unfold Int64.in_range, Int64.min_int, Int64.max_int in *; lia).
    split; [|split]; simpl.
    + rewrite length_app. simpl. lia.
    + intros x [->|Hx]%elem_of_cons.
      * subst next. by apply list_lookup_middle.
      * by apply lookup_app_l_Some, Hlive.
    + erewrite lookup_insert_here by apply Hb.
      do 2 f_equal. lia.
Qed.

Lemma step_drop live live' next s v h :
  owned live next s v →
  remove1 h live = Some live' →
  Z.of_nat (length live) ≤ Int64.max_int →
  ∃ s', step (OpDrop h) s = Some (tt, s') ∧
        owned live' next s' v ∧
        releases_at (OpDrop h) s = bool_decide (live' = []).
Proof.
  intros (Hlen & Hlive & Hb) (Hh & Hl & Hsub)%remove1_Some Hmax.
  pose proof (Drop_eq _ _ _ _ _ (Hlive h Hh) Hb) as Hdrop.
  assert (Hw : Int64.wrap (Z.of_nat (length live) + -1) = Z.of_nat (length live')).
  { rewrite wrap_id
      by (unfold Int64.in_range, Int64.min_int, Int64.max_int in *; lia). lia. }
  rewrite Hw in Hdrop.
  eexists. split; [exact Hdrop|]. split.
  - split; [|split]; simpl.
    + case_decide; [by rewrite length_insert|done].
    + intros x Hx. case_decide as Hz.
      * destruct live'; [by apply not_elem_of_nil in Hx|simpl in Hz; lia].
      * by apply Hlive, Hsub.
    + eapply lookup_insert_here, Hb.
  - unfold releases_at, ptr_at. rewrite (Hlive h Hh), Hdrop. simpl.
    unfold ref_at. simpl. erewrite lookup_insert_here by apply Hb. simpl.
    apply bool_decide_ext. destruct live'; simpl; split; intros ?;
      simplify_eq; done || lia.
Qed.

Lemma run_cons o rest s s1 :
  step o s = Some (tt, s1) → run (o :: rest) s = run rest s1.
Proof. intros H. simpl. unfold bind. by rewrite H. Qed.

Lemma counts_cons l o rest s s1 :
  step o s = Some (tt, s1) →
  counts l (o :: rest) s = ref_at l s1 :: counts l rest s1.
Proof. intros H. cbn [counts]. by rewrite H. Qed.

Lemma releases_cons o rest s s1 :
  step o s = Some (tt, s1) →
  releases (o :: rest) s =
    ((if releases_at o s then 1 else 0) + releases rest s1)%nat.
Proof. intros H. cbn [releases]. by rewrite H. Qed.

Lemma run_linear ops :
  ∀ live next s v,
    owned live next s v →
    live ≠ [] →
    linear live next ops = true →
    Z.of_nat (length live + length ops) ≤ Int64.max_int →
    ∃ s', run ops s = Some (tt, s') ∧
          ref_at 0 s' =
            Some (Z.of_nat (length live) + Z.of_nat (clones ops) - Z.of_nat (drops ops)) ∧
          Forall (λ oc, ∃ c, oc = Some c ∧ 0 ≤ c) (counts 0 ops s) ∧
          releases ops s =
            if decide (Z.of_nat (length live) + Z.of_nat (clones ops)
                       - Z.of_nat (drops ops) = 0)
            then 1%nat else 0%nat.
Proof.
  induction ops as [|[h|h] rest IH]; intros live next s v Hown Hne Hlin Hmax.
  - exists s. split; [done|]. split.
    { rewrite (owned_ref _ _ _ _ Hown). simpl. f_equal. lia. }
    split; [constructor|]. simpl.
    rewrite decide_False; [done|]. destruct live; [done|simpl; lia].
  - simpl in Hlin. apply andb_prop in Hlin as [Hh%bool_decide_eq_true Hlin].
    destruct (step_clone live next s v h Hown Hh) as (s1 & Hstep & Hown1).
    { simpl in Hmax. lia. }
    destruct (IH (next :: live) (S next) s1 v Hown1) as (s' & Hrun & Href & Hall & Hrel);
      [done|done|simpl in *; lia|].
    exists s'. split; [|split; [|split]].
    + by rewrite (run_cons _ _ _ _ Hstep).
    + rewrite Href. f_equal. simpl. lia.
    + rewrite (counts_cons _ _ _ _ _ Hstep). constructor; [|done].
      rewrite (owned_ref _ _ _ _ Hown1). eexists. split; [done|lia].
    + rewrite (releases_cons _ _ _ _ Hstep), Hrel. simpl.
      replace (Z.of_nat (S (length live))) with (Z.of_nat (length live) + 1) by lia.
      replace (Z.of_nat (S (clones rest))) with (Z.of_nat (clones rest) + 1) by lia.
      repeat case_decide; done || lia.
  - simpl in Hlin. destruct (remove1 h live) as [live'|] eqn:Hrm; [|done].
    destruct (step_drop live live' next s v h Hown Hrm) as (s1 & Hstep & Hown1 & Hrel1).
    { lia. }
    pose proof (remove1_Some _ _ _ Hrm) as (_ & Hlen & _).
    destruct (decide (live' = [])) as [->|Hne'].
    + apply linear_nil in Hlin as ->.
      exists s1. split; [|split; [|split]].
      * by rewrite (run_cons _ _ _ _ Hstep).
      * rewrite (owned_ref _ _ _ _ Hown1). f_equal. simpl in *. lia.
      * rewrite (counts_cons _ _ _ _ _ Hstep). constructor; [|constructor].
        rewrite (owned_ref _ _ _ _ Hown1). eexists. split; [done|simpl; lia].
      * rewrite (releases_cons _ _ _ _ Hstep), Hrel1. simpl in *.
        rewrite Hlen. by rewrite decide_True by lia.
    + destruct (IH live' next s1 v Hown1) as (s' & Hrun & Href & Hall & Hrel);
        [done|done|simpl in *; lia|].
      exists s'. split; [|split; [|split]].
      * by rewrite (run_cons _ _ _ _ Hstep).
      * rewrite Href. f_equal. simpl. lia.
      * rewrite (counts_cons _ _ _ _ _ Hstep). constructor; [|done].
        rewrite (owned_ref _ _ _ _ Hown1). eexists. split; [done|lia].
      * rewrite (releases_cons _ _ _ _ Hstep), Hrel, Hrel1.
        rewrite bool_decide_eq_false_2 by done. simpl.
        replace (Z.of_nat (S (drops rest))) with (Z.of_nat (drops rest) + 1) by lia.
        rewrite Hlen.
        replace (Z.of_nat (S (length live'))) with (Z.of_nat (length live') + 1) by lia.
        repeat case_decide; done || lia.
Qed.

(** [n] clones through handle 0 of a cell add [n] to its count, as long as
    the count stays within [int64]. *)
Lemma run_clones n :
  ∀ s v c,
    arcs s !! 0%nat = Some (MkArc (Some 0%nat)) →
    blocks s !! 0%nat = Some (ArcInternal v c) →
    0 ≤ c →
    c + Z.of_nat n ≤ Int64.max_int →
    ∃ s', run (replicate n (OpClone 0)) s = Some (tt, s') ∧
          arcs s' !! 0%nat = Some (MkArc (Some 0%nat)) ∧
          blocks s' !! 0%nat = Some (ArcInternal v (c + Z.of_nat n)).
Proof.
  induction n as [|n IH]; intros s v c Ha Hb Hc Hmax.
  - exists s. split; [done|]. split; [done|]. rewrite Hb. do 2 f_equal. lia.
  - cbn [replicate].
    assert (Hstep : step (OpClone 0) s =
              Some (tt, MkStore (<[0%nat:=ArcInternal v (c + 1)]> (blocks s))
                                (arcs s ++ [MkArc (Some 0%nat)]) (weaks s))).
    { unfold step, bind. rewrite (Clone_eq _ _ _ _ _ Ha Hb).
      rewrite wrap_id; [done|].
      unfold Int64.in_range, Int64.min_int, Int64.max_int in *. lia. }
    rewrite (run_cons _ _ _ _ Hstep).
    destruct (IH (MkStore (<[0%nat:=ArcInternal v (c + 1)]> (blocks s))
                          (arcs s ++ [MkArc (Some 0%nat)]) (weaks s)) v (c + 1))
      as (s' & Hrun & Ha' & Hb'); simpl.
    + by apply lookup_app_l_Some.
    + eapply lookup_insert_here, Hb.
    + lia.
    + lia.
    + exists s'. split; [done|]. split; [done|].
      rewrite Hb'. do 2 f_equal. lia.
Qed.

Lemma run_app ops1 ops2 s s1 :
  run ops1 s = Some (tt, s1) → run (ops1 ++ ops2) s = run ops2 s1.
Proof.
  revert s. induction ops1 as [|o ops1 IH]; intros s H.
  - by injection H as ->.
  - cbn [app run] in *. unfold bind in *.
    destruct (step o s) as [[[] s']|]; [|done]. by apply IH.
Qed.

Lemma NewArc_fresh_cell v : NewArc v arc.empty = Some (0%nat, fresh_cell v).
Proof. reflexivity. Qed.

(** C2, as the code has it. On a newly constructed cell, for every run of
    fewer than 2^63 - 1 [Clone] and [Drop] calls in which each call goes
    through a handle that has not been dropped before, the counting law
    holds: the count is clones + 1 - drops at the end, it is never negative
    along the run, and the release branch of [Drop] is taken exactly once if
    the final count is zero and never otherwise. *)
Theorem count_law_linear v ops :
  linear [0%nat] 1 ops = true →
  Z.of_nat (length ops) < Int64.max_int →
  count_law v ops.
Proof.
  intros Hlin Hmax.
  destruct (run_linear ops [0%nat] 1%nat (fresh_cell v) v) as (s & Hrun & Href & Hall & Hrel).
  - split; [done|]. split; [|done].
    intros h Hh%list_elem_of_singleton. by subst h.
  - done.
  - done.
  - simpl. lia.
  - exists s. split; [done|]. split.
    { rewrite Href. f_equal. simpl. lia. }
    split; [done|]. rewrite Hrel. simpl.
    repeat case_decide; done || lia.
Qed.

End ArcFacts.

(** ** Futures *)

Import future.

Section FutureFacts.

Local Open Scope nat_scope.

Context {T : Type}.
Variable zero : T.

Lemma Get_eq (f : futureImpl T) now :
  Get f now =
    match done f with
    | Some d => Some (result f, now `max` d)
    | None => None
    end.
Proof. unfold Get, bbind, recv, bret. by destruct (done f). Qed.

(** The loop of [All] started with [i] slots filled: it returns once every
    remaining future is done, not before the last of them, with slot [i + k]
    holding the result of the [k]-th remaining future; it blocks forever when
    one of them never completes. *)
Lemma All_loop_spec (futures : list (futureImpl T)) :
  ∀ i results now,
    length results = i + length futures →
    match All_loop i futures results now with
    | Some (r, t) =>
        r = take i results ++ (result <$> futures) ∧ now ≤ t ∧
        Forall (λ f, ∃ d, done f = Some d ∧ d ≤ t) futures
    | None => ∃ f, f ∈ futures ∧ done f = None
    end.
Proof.
  induction futures as [|f rest IH]; intros i results now Hlen; simpl in *.
  - unfold bret. split; [|split; [done|constructor]].
    rewrite app_nil_r, take_ge; [done|lia].
  - unfold bbind at 1. rewrite Get_eq.
    destruct (done f) as [d|] eqn:Hd; last first.
    { exists f. split; [left|done]. }
    specialize (IH (S i) (<[i:=result f]> results) (now `max` d)).
    rewrite length_insert in IH. specialize (IH ltac:(lia)).
    destruct (All_loop (S i) rest (<[i:=result f]> results) (now `max` d))
      as [[r t]|].
    + destruct IH as (Hr & Ht & Hall).
      split; [|split].
      * rewrite Hr.
        rewrite (take_S_r _ _ (result f))
          by (apply list_lookup_insert_eq; lia).
        rewrite take_insert_ge by lia.
        by rewrite <- app_assoc.
      * lia.
      * constructor; [|done]. exists d. split; [done|lia].
    + destruct IH as (g & Hg & Hnone). exists g. split; [by right|done].
Qed.

(** C7. When the future produced by [All] completes without error, its
    result is the list of the inputs' results in input order (slot [i] holds
    the result of input [i], whatever the order in which the inputs
    completed), and every input has completed by then.  It does complete
    without error whenever all inputs complete, unless it is cancelled
    before its goroutine starts. *)
Theorem All_in_input_order cancel start (futures : list (futureImpl T)) :
  (∀ t, done (All zero cancel start futures) = Some t →
        err (All zero cancel start futures) = None →
     result (All zero cancel start futures) = result <$> futures ∧
     (∀ i f, futures !! i = Some f →
             result (All zero cancel start futures) !! i = Some (result f)) ∧
     (∀ f, f ∈ futures → ∃ d, done f = Some d ∧ d ≤ t)) ∧
  (ready (WithCancel Background cancel) start = false →
   (∀ f, f ∈ futures → is_Some (done f)) →
     is_Some (done (All zero cancel start futures)) ∧
     err (All zero cancel start futures) = None).
Proof.
  unfold All, New, NewWithContext, execute.
  pose proof (All_loop_spec futures 0 (replicate (length futures) zero) start) as Hloop.
  rewrite length_replicate in Hloop. specialize (Hloop eq_refl).
  destruct (ready (WithCancel Background cancel) start).
  { simpl. split; [|done]. by intros t _ [=]. }
  destruct (All_loop 0 futures (replicate (length futures) zero) start)
    as [[r t]|]; simpl.
  - destruct Hloop as (Hr & Ht & Hall). simpl in Hr. subst r.
    split; [|by eauto].
    intros t' [= <-] _. split; [done|]. split.
    + intros i f Hf. by rewrite list_lookup_fmap, Hf.
    + intros f Hf. rewrite Forall_forall in Hall.
      by apply Hall, list_elem_of_In.
  - destruct Hloop as (g & Hg & Hnone). split.
    + intros t' [=].
    + intros _ Hdone. destruct (Hdone g Hg) as [d Hd]. congruence.
Qed.

End FutureFacts.

Section MapThen.

Local Open Scope nat_scope.

Context {T R : Type}.
Variable zero : R.

(** C8. [Map f fn] and [Then f fn] are the same future: the same fields,
    hence the same answers to [Get], [Error] and [IsDone] at every instant.
    Unless cancelled before its goroutine starts, [Get] on either returns
    [fn] of the result of [f], once [f] is done. *)
Theorem Map_equals_Then cancel start (f : futureImpl T) (fn : T → R) :
  Map zero cancel start f fn = Then zero cancel start f fn ∧
  (∀ now, Get (Map zero cancel start f fn) now = Get (Then zero cancel start f fn) now ∧
          Error (Map zero cancel start f fn) now = Error (Then zero cancel start f fn) now ∧
          IsDone (Map zero cancel start f fn) now = IsDone (Then zero cancel start f fn) now ∧
          Get (Map zero cancel start f fn) now =
            if ready (WithCancel Background cancel) start
            then Some (zero, now `max` start)
            else match done f with
                 | Some d => Some (fn (result f), now `max` (start `max` d))
                 | None => None
                 end).
Proof.
  split; [reflexivity|].
  intros now. split; [reflexivity|]. split; [reflexivity|]. split; [reflexivity|].
  rewrite Get_eq. unfold Map, New, NewWithContext, execute.
  destruct (ready (WithCancel Background cancel) start); [done|].
  unfold bbind. rewrite Get_eq. by destruct (done f).
Qed.

End MapThen.

(** * Concrete runs *)

Import scenario.

Lemma two_handles_one_count_run :
  (NewArc 7;; Clone 0;; Drop 1) arc.empty = Some (tt, two_handles_one_count).
Proof. reflexivity. Qed.

Lemma released_run :
  (Drop 0) sole_owner = Some (tt, released).
Proof. reflexivity. Qed.

(** C1, as stated, fails: after [a := NewArc(7); b := a.Clone(); b.Drop()]
    the call [a.Drop()] brings the count to zero, and [b.Deref()] still
    returns the block. *)
Lemma released_block_still_reachable :
  ¬ released_unreachable 0 two_handles_one_count.
Proof.
  intros H.
  apply (H 0%nat two_handles_released eq_refl eq_refl eq_refl 1%nat eq_refl).
  reflexivity.
Qed.

Lemma Drop_to_zero_clears_own_pointer_witness :
  ptr_at 0 two_handles_one_count = Some (Some 0%nat) ∧
  Drop 0 two_handles_one_count = Some (tt, two_handles_released) ∧
  ref_at 0 two_handles_released = Some 0 ∧
  Deref 0 two_handles_released = Some (None, two_handles_released) ∧
  StrongCount 0 two_handles_released = Some (0, two_handles_released) ∧
  ∃ v, data_at 0 two_handles_one_count = Some v ∧
       data_at 0 two_handles_released = Some v ∧
       ∀ b, b ≠ 0%nat →
            arcs two_handles_released !! b = arcs two_handles_one_count !! b ∧
            (ptr_at b two_handles_one_count = Some (Some 0%nat) →
               Deref b two_handles_released = Some (Some 0%nat, two_handles_released) ∧
               load_data (Some 0%nat) two_handles_released = Some (v, two_handles_released) ∧
               StrongCount b two_handles_released = Some (0, two_handles_released)).
Proof.
  split; [reflexivity|]. split; [reflexivity|]. split; [reflexivity|].
  apply (Drop_to_zero_clears_own_pointer 0 0 two_handles_one_count two_handles_released);
    reflexivity.
Defined.

(** C2, as stated, fails: in [a := NewArc(7); b := a.Clone(); a.Drop();
    a.Drop(); b.Drop()] the second [a.Drop()] brings the count to 0 and the
    third drop to -1. *)
Lemma count_law_double_drop :
  ¬ count_law 7 [OpClone 0; OpDrop 0; OpDrop 0; OpDrop 1].
Proof.
  intros (s & _ & _ & Hall & _).
  eapply (Forall_lookup_1 _ _ 3 (Some (-1))) in Hall; [|reflexivity].
  destruct Hall as (c & Hc & Hpos). simplify_eq. lia.
Qed.

Lemma double_drop_negative_count :
  (NewArc 7;; Clone 0;; Drop 0;; Drop 0;; Drop 1;; StrongCount 1) arc.empty =
    Some (-1, MkStore [ArcInternal 7 (-1)] [MkArc None; MkArc (Some 0%nat)] []).
Proof. reflexivity. Qed.

(** A handle dropped twice and a clone taken through a stale handle make
    the count reach zero twice. *)
Lemma double_drop_releases_twice :
  releases [OpClone 0; OpDrop 0; OpDrop 0; OpClone 1; OpDrop 1] (fresh_cell 7) = 2%nat.
Proof. reflexivity. Qed.

(** The bound on the length of the run is needed: 2^63 - 1 clones through
    the first handle of a new cell, a linear run, overflow the count. *)
Lemma clones_overflow :
  ∃ s, run (replicate (Z.to_nat (Int64.max_int - 1)) (OpClone 0) ++ [OpClone 0])
           (fresh_cell 7) = Some (tt, s) ∧
       ref_at 0 s = Some Int64.min_int.
Proof.
  destruct (run_clones (Z.to_nat (Int64.max_int - 1)) (fresh_cell 7) 7 1)
    as (s1 & Hrun & Ha & Hb); [reflexivity|reflexivity|lia| |].
  { rewrite Z2Nat.id; unfold Int64.max_int; lia. }
  rewrite Z2Nat.id in Hb by (unfold Int64.max_int; lia).
  replace (1 + (Int64.max_int - 1)) with Int64.max_int in Hb by lia.
  rewrite (run_app _ _ _ _ Hrun). clear Hrun.
  pose proof (Clone_eq _ _ _ _ _ Ha Hb) as Hclone.
  rewrite wrap_max_succ in Hclone.
  exists (MkStore (<[0%nat:=ArcInternal 7 Int64.min_int]> (blocks s1))
                  (arcs s1 ++ [MkArc (Some 0%nat)]) (weaks s1)).
  split.
  - cbn [run]. unfold step, bind. rewrite Hclone. reflexivity.
  - apply ref_at_Some. exists 7. cbn [blocks]. eapply lookup_insert_here, Hb.
Qed.

Lemma count_law_linear_witness :
  linear [0%nat] 1 [OpClone 0; OpDrop 0; OpClone 1; OpDrop 1; OpDrop 2] = true ∧
  Z.of_nat (length [OpClone 0; OpDrop 0; OpClone 1; OpDrop 1; OpDrop 2]) < Int64.max_int ∧
  count_law 7 [OpClone 0; OpDrop 0; OpClone 1; OpDrop 1; OpDrop 2].
Proof.
  split; [reflexivity|]. split; [reflexivity|].
  apply (count_law_linear 7 [OpClone 0; OpDrop 0; OpClone 1; OpDrop 1; OpDrop 2]);
    reflexivity.
Defined.

Lemma TryUnwrap_sole_owner_witness :
  arcs sole_owner !! 0%nat = Some (MkArc (Some 0%nat)) ∧
  blocks sole_owner !! 0%nat = Some (ArcInternal 7 1) ∧
  (1 = 1 →
     TryUnwrap 0 1 0 sole_owner =
       Some (Some (7, true),
             MkStore (<[0%nat:=ArcInternal 7 0]> (blocks sole_owner))
                     (<[0%nat:=MkArc None]> (arcs sole_owner)) (weaks sole_owner)))
  ∧ (1 ≠ 1 → TryUnwrap 0 1 0 sole_owner = Some (Some (0, false), sole_owner)).
Proof.
  split; [reflexivity|]. split; [reflexivity|].
  apply (TryUnwrap_sole_owner 0 0 0 0 7 1 sole_owner); reflexivity.
Defined.

Lemma CompareAndSwap_sole_owner_witness :
  arcs two_handles_one_count !! 1%nat = Some (MkArc (Some 0%nat)) ∧
  blocks two_handles_one_count !! 0%nat = Some (ArcInternal 7 1) ∧
  (1 = 1 →
     CompareAndSwap 1 99 8 two_handles_one_count =
       Some (true, MkStore (<[0%nat:=ArcInternal 8 1]> (blocks two_handles_one_count))
                           (arcs two_handles_one_count) (weaks two_handles_one_count)))
  ∧ (1 ≠ 1 → CompareAndSwap 1 99 8 two_handles_one_count =
               Some (false, two_handles_one_count))
  ∧ (∀ expected, CompareAndSwap 1 expected 8 two_handles_one_count =
                 CompareAndSwap 1 99 8 two_handles_one_count).
Proof.
  split; [reflexivity|]. split; [reflexivity|].
  apply (CompareAndSwap_sole_owner 1 0 7 1 99 8 two_handles_one_count); reflexivity.
Defined.

Lemma Upgrade_released_witness :
  weaks released !! 0%nat = Some (MkWeak (Some 0%nat)) ∧
  blocks released !! 0%nat = Some (ArcInternal 7 0) ∧
  Upgrade 0 released = Some (None, released) ∧
  ∃ s1, atomic_AddInt64 0 1 released = Some (1, s1) ∧
        atomic_AddInt64 0 (-1) s1 = Some (0, released) ∧
        ref_at 0 released = Some 0.
Proof.
  split; [reflexivity|]. split; [reflexivity|].
  apply (Upgrade_released 0 0 7 released); reflexivity.
Defined.

Lemma released_two_weaks_run :
  (NewArc 7;; Downgrade 0;; Downgrade 0;; Drop 0) arc.empty =
    Some (tt, released_two_weaks).
Proof. reflexivity. Qed.

(** Two upgrades of the released block of [released_two_weaks]: the one
    through handle 1 returns the new strong handle 1. *)
Lemma Upgrade_released_interleaved_witness :
  weaks released_two_weaks !! 0%nat = Some (MkWeak (Some 0%nat)) ∧
  weaks released_two_weaks !! 1%nat = Some (MkWeak (Some 0%nat)) ∧
  blocks released_two_weaks !! 0%nat = Some (ArcInternal 7 0) ∧
  (let! r1 := Upgrade 0 in
   let! r2 := Upgrade 1 in
   ret (r1, r2)) released_two_weaks = Some ((None, None), released_two_weaks) ∧
  (let! p1 := Upgrade_begin 0 in
   let! p2 := Upgrade_begin 1 in
   let! r2 := Upgrade_end p2 in
   let! r1 := Upgrade_end p1 in
   ret (r1, r2)) released_two_weaks =
    Some ((None, Some 1%nat),
          MkStore [ArcInternal 7 1] [MkArc None; MkArc (Some 0%nat)]
                  [MkWeak (Some 0%nat); MkWeak (Some 0%nat)]).
Proof.
  split; [reflexivity|]. split; [reflexivity|]. split; [reflexivity|].
  apply (Upgrade_released_interleaved 0 1 0 7 released_two_weaks); reflexivity.
Defined.

(** C5, as stated, fails at the largest count: the increment of [Upgrade]
    wraps around to the smallest [int64], which is not above 1, and
    [Upgrade] returns nil. *)
Lemma Downgrade_then_Upgrade_saturated :
  live_handle 0 saturated ∧ ¬ downgrade_upgrade_succeeds 0 saturated.
Proof.
  split.
  - exists 0%nat, 7, Int64.max_int. split; [done|]. split; [done|]. done.
  - intros (l & c & w & s1 & a' & s2 & Hp & Hr & Hd & _ & Hu & _).
    vm_compute in Hp. injection Hp as <-.
    vm_compute in Hd. injection Hd as <- <-.
    vm_compute in Hu. discriminate Hu.
Qed.

(** The largest count is reached from a new cell by 2^63 - 2 clones, and
    [Upgrade] after [Downgrade] fails in the store so reached. *)
Lemma saturated_count_reachable :
  ∃ s, run (replicate (Z.to_nat (Int64.max_int - 1)) (OpClone 0)) (fresh_cell 7)
         = Some (tt, s) ∧
       live_handle 0 s ∧ ¬ downgrade_upgrade_succeeds 0 s.
Proof.
  destruct (run_clones (Z.to_nat (Int64.max_int - 1)) (fresh_cell 7) 7 1)
    as (s & Hrun & Ha & Hb); [reflexivity|reflexivity|lia| |].
  { rewrite Z2Nat.id; unfold Int64.max_int; lia. }
  rewrite Z2Nat.id in Hb by (unfold Int64.max_int; lia).
  replace (1 + (Int64.max_int - 1)) with Int64.max_int in Hb by lia.
  exists s. split; [exact Hrun|]. clear Hrun. split.
  - exists 0%nat, 7, Int64.max_int. split; [exact Ha|]. split; [exact Hb|].
    unfold Int64.max_int. lia.
  - exact (Upgrade_saturated_fails s 0 0 7 Ha Hb).
Qed.

Lemma Downgrade_then_Upgrade_witness :
  arcs two_handles_one_count !! 0%nat = Some (MkArc (Some 0%nat)) ∧
  blocks two_handles_one_count !! 0%nat = Some (ArcInternal 7 1) ∧
  1 ≤ 1 < Int64.max_int ∧
  downgrade_upgrade_succeeds 0 two_handles_one_count.
Proof.
  split; [reflexivity|]. split; [reflexivity|]. split; [done|].
  apply (Downgrade_then_Upgrade 0 0 7 1 two_handles_one_count);
    [reflexivity|reflexivity|done].
Defined.

(** C9, as stated, fails at the largest count: the increment of [With]
    wraps around, and a callback that reads the count while it runs does not
    see one more than before, but the smallest [int64]. *)
Lemma With_bracket_saturated :
  live_handle 0 saturated ∧ ¬ with_brackets 0 saturated.
Proof.
  split.
  - exists 0%nat, 7, Int64.max_int. split; [done|]. split; [done|]. done.
  - intros (c & s' & Hc & Hw & Hv & _).
    vm_compute in Hc. injection Hc as <-.
    vm_compute in Hw. injection Hw as <-.
    vm_compute in Hv. discriminate Hv.
Qed.

(** Below the largest count the callback sees one more than before. *)
Lemma with_brackets_sole_owner : with_brackets 0 sole_owner.
Proof. eexists _, _. repeat split. Qed.

Lemma With_bracket_witness :
  arcs sole_owner !! 0%nat = Some (MkArc (Some 0%nat)) ∧
  blocks sole_owner !! 0%nat = Some (ArcInternal 7 1) ∧
  1 ≤ 1 < Int64.max_int ∧
  ∃ s1,
    atomic_AddInt64 0 1 sole_owner = Some (1 + 1, s1) ∧
    s1 = MkStore (<[0%nat:=ArcInternal 7 (1 + 1)]> (blocks sole_owner))
                 (arcs sole_owner) (weaks sole_owner) ∧
    StrongCount 0 s1 = Some (1 + 1, s1) ∧
    With 0 (record_count 0) sole_owner = (record_count 0 0;; Drop 0;; ret true) s1 ∧
    (∀ v' s2, record_count 0 0 s1 = Some (tt, s2) →
       arcs s2 !! 0%nat = Some (MkArc (Some 0%nat)) →
       blocks s2 !! 0%nat = Some (ArcInternal v' (1 + 1)) →
       ∃ s3, Drop 0 s2 = Some (tt, s3) ∧
             With 0 (record_count 0) sole_owner = Some (true, s3) ∧
             s3 = MkStore (<[0%nat:=ArcInternal v' 1]> (blocks s2)) (arcs s2) (weaks s2) ∧
             ref_at 0 s3 = Some 1 ∧
             ptr_at 0 s3 = Some (Some 0%nat)) ∧
    (∀ f : Z → Z,
       With 0 (call_on_data f) sole_owner =
         Some (true, MkStore (<[0%nat:=ArcInternal (f 7) 1]> (blocks sole_owner))
                             (arcs sole_owner) (weaks sole_owner)) ∧
       ∃ a' sa sb sc,
         Clone 0 sole_owner = Some (Some a', sa) ∧
         call_on_data f 0 sa = Some (tt, sb) ∧
         Drop a' sb = Some (tt, sc) ∧
         blocks sc = <[0%nat:=ArcInternal (f 7) 1]> (blocks sole_owner)) ∧
    (∀ b, arcs sole_owner !! b = Some (MkArc (Some 0%nat)) →
       ∃ s2, Drop b s1 = Some (tt, s2) ∧
             ref_at 0 s2 = Some 1 ∧
             ptr_at b s2 = Some (Some 0%nat) ∧
             ptr_at 0 s2 = Some (Some 0%nat)).
Proof.
  split; [reflexivity|]. split; [reflexivity|]. split; [done|].
  apply (With_bracket 0 0 7 1 (record_count 0) sole_owner);
    [reflexivity|reflexivity|done].
Defined.

(** C10, as stated, fails for [Reset]: through a handle whose pointer is
    nil it is not a no-op, the handle points to a new block afterwards. *)
Lemma Reset_nil_pointer_not_no_op :
  ptr_at 0 released = Some None ∧ ¬ no_op (Reset 0 5) released.
Proof.
  split; [reflexivity|]. unfold no_op. intros H. discriminate H.
Qed.

(** [MergeArcs] on a handle whose pointer is nil panics: [arc.Deref()]
    returns nil and is dereferenced. *)
Lemma MergeArcs_nil_pointer_panics :
  MergeArcs 0 [Some 0%nat] released arc.empty = None.
Proof. reflexivity. Qed.

Lemma two_handles_released_run :
  (NewArc 7;; Clone 0;; Drop 1;; Drop 0) arc.empty = Some (tt, two_handles_released).
Proof. reflexivity. Qed.

(** Handle 0 of [two_handles_released] was invalidated by a [Drop] that
    reached zero; [sole_owner] holds a [Weak] whose pointer is nil. *)
Lemma nil_pointer_methods_witness :
  arcs two_handles_released !! 0%nat = Some (MkArc None) ∧
  Clone 0 two_handles_released = Some (None, two_handles_released) ∧
  Deref 0 two_handles_released = Some (None, two_handles_released) ∧
  StrongCount 0 two_handles_released = Some (0, two_handles_released) ∧
  Drop 0 two_handles_released = Some (tt, two_handles_released) ∧
  With 0 (record_count 1) two_handles_released = Some (false, two_handles_released) ∧
  Swap 0 (Some 1%nat) two_handles_released = Some (tt, two_handles_released) ∧
  weaks sole_owner !! 1%nat = Some (MkWeak None) ∧
  Upgrade 1 sole_owner = Some (None, sole_owner).
Proof.
  destruct (nil_pointer_methods 0 3 7 8 (record_count 1) Z.to_nat arc.empty
              two_handles_released) as [Harc _].
  destruct (Harc 0%nat (Some 1%nat) eq_refl)
    as (Hclone & Hderef & Hcount & Hdrop & _ & _ & _ & Hwith & _ & _ & _ & Hswap & _).
  destruct (nil_pointer_methods 0 3 7 8 (record_count 1) Z.to_nat arc.empty
              sole_owner) as [_ Hweak].
  split; [reflexivity|].
  split; [exact Hclone|]. split; [exact Hderef|]. split; [exact Hcount|].
  split; [exact Hdrop|]. split; [exact Hwith|]. split; [exact Hswap|].
  split; [reflexivity|].
  exact (Hweak 1%nat eq_refl).
Defined.

(** The scenario of the specification: [all(t1, t2, t3)] where [t2]
    completes first, then [t3], then [t1]. *)
Lemma All_in_input_order_witness :
  ready (WithCancel Background None) 0 = false ∧
  (∀ f, f ∈ [t1; t2; t3] → is_Some (done f)) ∧
  done (All 0 None 0 [t1; t2; t3]) = Some 3%nat ∧
  err (All 0 None 0 [t1; t2; t3]) = None ∧
  result (All 0 None 0 [t1; t2; t3]) = result <$> [t1; t2; t3] ∧
  (∀ i f, [t1; t2; t3] !! i = Some f →
          result (All 0 None 0 [t1; t2; t3]) !! i = Some (result f)) ∧
  (∀ f, f ∈ [t1; t2; t3] → ∃ d, done f = Some d ∧ (d ≤ 3)%nat).
Proof.
  split; [reflexivity|]. split.
  { intros f Hf. repeat (apply elem_of_cons in Hf as [->|Hf]); eauto.
    by apply not_elem_of_nil in Hf. }
  split; [reflexivity|]. split; [reflexivity|].
  apply (proj1 (All_in_input_order 0 None 0%nat [t1; t2; t3]) 3%nat); reflexivity.
Defined.

Lemma All_scenario :
  All 0 None 0 [t1; t2; t3] = FutureImpl None [10; 20; 30] (Some 3%nat) None.
Proof. reflexivity. Qed.

(** * Further properties of [arc.go] *)

Section ArcMore.

Context {T : Type}.
Variable zero : T.
Implicit Type s : Store T.
Implicit Type v : T.

Lemma NewArc_eq s v :
  NewArc v s =
    Some (length (arcs s),
          MkStore (blocks s ++ [ArcInternal v 1])
                  (arcs s ++ [MkArc (Some (length (blocks s)))]) (weaks s)).
Proof. reflexivity. Qed.

Lemma in_range_of c : Int64.min_int ≤ c ≤ Int64.max_int → Int64.in_range c.
Proof. done. Qed.

Lemma wrap_succ c : 0 ≤ c < Int64.max_int → Int64.wrap (c + 1) = c + 1.
Proof.
  intros H. apply wrap_id.
  unfold Int64.in_range, Int64.min_int, Int64.max_int in *. lia.
Qed.


Lemma TryUnwrap_eq fuel s a l v c :
  arcs s !! a = Some (MkArc (Some l)) →
  blocks s !! l = Some (ArcInternal v c) →
  TryUnwrap zero (S fuel) a s =
    if decide (c = 1)
    then Some (Some (v, true),
               MkStore (<[l:=ArcInternal v 0]> (blocks s))
                       (<[a:=MkArc None]> (arcs s)) (weaks s))
    else Some (Some (zero, false), s).
Proof.
  intros Ha Hl.
  unfold TryUnwrap, bind. rewrite (get_ptr_eq _ _ _ Ha). simpl.
  unfold bind. rewrite (atomic_LoadInt64_eq _ _ _ _ Hl).
  destruct (decide (c = 1)) as [->|Hc].
  - rewrite decide_False by (intros ?; done).
    rewrite (atomic_CompareAndSwapInt64_eq _ _ _ _ _ _ Hl).
    rewrite decide_True by done.
    erewrite load_internal_eq by (simpl; eapply lookup_insert_here, Hl).
    simpl. by erewrite set_ptr_eq by (simpl; apply Ha).
  - by rewrite decide_True.
Qed.

Lemma With_eq s a l v c fn :
  arcs s !! a = Some (MkArc (Some l)) →
  blocks s !! l = Some (ArcInternal v c) →
  Int64.in_range c → c ≠ 0 →
  With a (call_on_data fn) s =
    Some (true, MkStore (<[l:=ArcInternal (fn v) c]> (blocks s)) (arcs s) (weaks s)).
Proof.
  intros Ha Hl Hc Hc0.
  assert (Hback : Int64.wrap (Int64.wrap (c + 1) + -1) = c).
  { by apply wrap_succ_pred. }
  pose proof (atomic_AddInt64_eq _ _ _ _ 1 Hl) as Hadd.
  set (s1 := MkStore (<[l:=ArcInternal v (Int64.wrap (c + 1))]> (blocks s))
                     (arcs s) (weaks s)) in *.
  assert (Hl1 : blocks s1 !! l = Some (ArcInternal v (Int64.wrap (c + 1)))).
  { eapply lookup_insert_here, Hl. }
  set (s2 := MkStore (<[l:=ArcInternal (fn v) (Int64.wrap (c + 1))]> (blocks s))
                     (arcs s) (weaks s)).
  assert (Hcall : call_on_data fn l s1 = Some (tt, s2)).
  { unfold call_on_data, bind. rewrite (load_internal_eq _ _ _ Hl1).
    rewrite (store_internal_eq _ _ _ _ Hl1). cbn [blocks arcs weaks s1 data ref].
    by rewrite insert_insert_here. }
  assert (Hl2 : blocks s2 !! l = Some (ArcInternal (fn v) (Int64.wrap (c + 1)))).
  { eapply lookup_insert_here, Hl. }
  pose proof (Drop_eq s2 a l _ _ Ha Hl2) as Hdrop.
  rewrite Hback in Hdrop. rewrite decide_False in Hdrop by done.
  cbn [blocks arcs weaks s2] in Hdrop. rewrite insert_insert_here in Hdrop.
  unfold With, bind. rewrite (get_ptr_eq _ _ _ Ha). rewrite Hadd.
  unfold call_on_data, bind in Hcall. unfold call_on_data, bind.
  rewrite Hcall. by rewrite Hdrop.
Qed.

Lemma wrap_succ_nonzero c : 1 ≤ c ≤ Int64.max_int → Int64.wrap (c + 1) ≠ 0.
Proof.
  intros Hc. destruct (decide (c = Int64.max_int)) as [->|Hne]; [done|].
  rewrite wrap_succ by lia. lia.
Qed.

Lemma Upgrade_eq s w l v c :
  weaks s !! w = Some (MkWeak (Some l)) →
  blocks s !! l = Some (ArcInternal v c) →
  Upgrade w s =
    if decide (Int64.wrap (c + 1) > 1)
    then Some (Some (length (arcs s)),
               MkStore (<[l:=ArcInternal v (Int64.wrap (c + 1))]> (blocks s))
                       (arcs s ++ [MkArc (Some l)]) (weaks s))
    else Some (None,
               MkStore (<[l:=ArcInternal v (Int64.wrap (Int64.wrap (c + 1) + -1))]>
                          (blocks s))
                       (arcs s) (weaks s)).
Proof.
  intros Hw Hl. unfold Upgrade, bind. rewrite (get_wptr_eq _ _ _ Hw).
  rewrite (atomic_AddInt64_eq _ _ _ _ _ Hl).
  case_decide; [done|].
  erewrite atomic_AddInt64_eq by (simpl; eapply lookup_insert_here, Hl).
  simpl. by rewrite insert_insert_here.
Qed.

(** X1. [NewArc] in any store yields a handle that was not in use, to a
    block that was not in use, with count 1 and the given value; every
    block, [Arc] and [Weak] already in the store is left as it is. *)
Theorem NewArc_independent s v :
  ∃ a l s',
    NewArc v s = Some (a, s') ∧
    arcs s !! a = None ∧ blocks s !! l = None ∧
    Deref a s' = Some (Some l, s') ∧
    load_data (Some l) s' = Some (v, s') ∧
    StrongCount a s' = Some (1, s') ∧
    (∀ l0 b, blocks s !! l0 = Some b → blocks s' !! l0 = Some b) ∧
    (∀ a0 x, arcs s !! a0 = Some x → arcs s' !! a0 = Some x) ∧
    weaks s' = weaks s.
Proof.
  exists (length (arcs s)), (length (blocks s)),
    (MkStore (blocks s ++ [ArcInternal v 1])
             (arcs s ++ [MkArc (Some (length (blocks s)))]) (weaks s)).
  split; [apply NewArc_eq|].
  assert (Ha : (arcs s ++ [MkArc (Some (length (blocks s)))]) !! length (arcs s)
               = Some (MkArc (Some (length (blocks s))))).
  { by apply list_lookup_middle. }
  assert (Hl : (blocks s ++ [ArcInternal v 1]) !! length (blocks s)
               = Some (ArcInternal v 1)).
  { by apply list_lookup_middle. }
  split. { apply lookup_ge_None. lia. }
  split. { apply lookup_ge_None. lia. }
  split. { by apply Deref_eq. }
  split. { by apply load_data_eq with 1. }
  split. { by apply StrongCount_eq with (length (blocks s)) v. }
  split. { intros l0 b Hb. by apply lookup_app_l_Some. }
  split. { intros a0 x Hx. by apply lookup_app_l_Some. }
  done.
Qed.

(** X2. [NewArc] followed by [TryUnwrap] on the new handle gives the value
    back, and a second [TryUnwrap] on the same handle fails with the zero
    value: the value can be taken out once. *)
Theorem NewArc_TryUnwrap_once s v fuel :
  ∃ a s1 s2,
    NewArc v s = Some (a, s1) ∧
    TryUnwrap zero (S fuel) a s1 = Some (Some (v, true), s2) ∧
    TryUnwrap zero (S fuel) a s2 = Some (Some (zero, false), s2) ∧
    Deref a s2 = Some (None, s2).
Proof.
  set (s1 := MkStore (blocks s ++ [ArcInternal v 1])
                     (arcs s ++ [MkArc (Some (length (blocks s)))]) (weaks s)).
  assert (Ha : arcs s1 !! length (arcs s) = Some (MkArc (Some (length (blocks s))))).
  { by apply list_lookup_middle. }
  assert (Hl : blocks s1 !! length (blocks s) = Some (ArcInternal v 1)).
  { by apply list_lookup_middle. }
  pose proof (TryUnwrap_eq fuel s1 _ _ _ _ Ha Hl) as Htry.
  rewrite decide_True in Htry by done.
  set (s2 := MkStore (<[length (blocks s):=ArcInternal v 0]> (blocks s1))
                     (<[length (arcs s):=MkArc None]> (arcs s1)) (weaks s1)) in *.
  assert (Hnil : arcs s2 !! length (arcs s) = Some (MkArc None)).
  { eapply lookup_insert_here, Ha. }
  exists (length (arcs s)), s1, s2.
  split; [apply NewArc_eq|]. split; [exact Htry|]. split.
  - unfold TryUnwrap, bind. by rewrite (get_ptr_eq _ _ _ Hnil).
  - by apply Deref_eq.
Qed.

(** X3. A clone shares the block, at every count from 1 to the largest
    [int64]: after [Clone], a change that a callback of [With] makes to the
    value through the clone is what [Deref] through the original handle
    reads, and [StrongCount] through either handle is the count before
    [Clone] plus one as an [int64]: one more than before below the largest
    count, and the smallest [int64] at the largest. *)
Theorem Clone_shares_block s a l v c (f : T → T) :
  arcs s !! a = Some (MkArc (Some l)) →
  blocks s !! l = Some (ArcInternal v c) →
  1 ≤ c ≤ Int64.max_int →
  ∃ a' s1 s2,
    Clone a s = Some (Some a', s1) ∧ a' ≠ a ∧
    With a' (call_on_data f) s1 = Some (true, s2) ∧
    Deref a s2 = Some (Some l, s2) ∧
    Deref a' s2 = Some (Some l, s2) ∧
    load_data (Some l) s2 = Some (f v, s2) ∧
    StrongCount a s2 = Some (Int64.wrap (c + 1), s2) ∧
    StrongCount a' s2 = Some (Int64.wrap (c + 1), s2) ∧
    (c < Int64.max_int → Int64.wrap (c + 1) = c + 1) ∧
    (c = Int64.max_int → Int64.wrap (c + 1) = Int64.min_int).
Proof.
  intros Ha Hl Hc.
  pose proof (Clone_eq _ _ _ _ _ Ha Hl) as Hclone.
  set (s1 := MkStore (<[l:=ArcInternal v (Int64.wrap (c + 1))]> (blocks s))
                     (arcs s ++ [MkArc (Some l)]) (weaks s)) in *.
  assert (Ha1 : arcs s1 !! a = Some (MkArc (Some l))).
  { by apply lookup_app_l_Some. }
  assert (Ha' : arcs s1 !! length (arcs s) = Some (MkArc (Some l))).
  { by apply list_lookup_middle. }
  assert (Hl1 : blocks s1 !! l = Some (ArcInternal v (Int64.wrap (c + 1)))).
  { eapply lookup_insert_here, Hl. }
  pose proof (With_eq s1 _ _ _ _ f Ha' Hl1 (wrap_range _)
                (wrap_succ_nonzero _ Hc)) as Hwith.
  set (s2 := MkStore (<[l:=ArcInternal (f v) (Int64.wrap (c + 1))]> (blocks s1))
                     (arcs s1) (weaks s1)) in *.
  assert (Hl2 : blocks s2 !! l = Some (ArcInternal (f v) (Int64.wrap (c + 1)))).
  { eapply lookup_insert_here, Hl1. }
  exists (length (arcs s)), s1, s2.
  split; [done|]. split.
  { intros Heq. apply lookup_lt_Some in Ha. lia. }
  split; [done|].
  split. { by apply Deref_eq. }
  split. { by apply Deref_eq. }
  split. { by apply load_data_eq with (Int64.wrap (c + 1)). }
  split. { by apply StrongCount_eq with l (f v). }
  split. { by apply StrongCount_eq with l (f v). }
  split.
  - intros Hlt. apply wrap_succ. lia.
  - by intros ->.
Qed.


(** X5. [GetMut], [CompareAndSwap] and [TryUnwrap] agree on sole ownership:
    through a handle that points to a block, [GetMut] returns the block
    exactly when the count is 1, and that is exactly when [CompareAndSwap]
    returns [true] and when [TryUnwrap] succeeds.  [GetMut] changes nothing. *)
Theorem GetMut_agrees s a l v c fuel oldValue newValue :
  arcs s !! a = Some (MkArc (Some l)) →
  blocks s !! l = Some (ArcInternal v c) →
  GetMut a s = Some (if decide (c = 1) then Some l else None, s) ∧
  (GetMut a s = Some (Some l, s) ↔
     ∃ s', CompareAndSwap a oldValue newValue s = Some (true, s')) ∧
  (GetMut a s = Some (Some l, s) ↔
     ∃ s', TryUnwrap zero (S fuel) a s = Some (Some (v, true), s')).
Proof.
  intros Ha Hl.
  assert (Hget : GetMut a s = Some (if decide (c = 1) then Some l else None, s)).
  { unfold GetMut, bind. rewrite (get_ptr_eq _ _ _ Ha).
    rewrite (atomic_LoadInt64_eq _ _ _ _ Hl). by case_decide. }
  assert (Hcas : CompareAndSwap a oldValue newValue s =
            if decide (c = 1)
            then Some (true, MkStore (<[l:=ArcInternal newValue c]> (blocks s))
                                     (arcs s) (weaks s))
            else Some (false, s)).
  { unfold CompareAndSwap, bind. rewrite (get_ptr_eq _ _ _ Ha).
    rewrite (atomic_LoadInt64_eq _ _ _ _ Hl).
    destruct (decide (c = 1)) as [->|Hc].
    - rewrite decide_False by (intros ?; done).
      rewrite (load_internal_eq _ _ _ Hl). simpl.
      by rewrite (store_internal_eq _ _ _ _ Hl).
    - by rewrite decide_True. }
  rewrite Hget, Hcas, (TryUnwrap_eq _ _ _ _ _ _ Ha Hl).
  split; [done|].
  destruct (decide (c = 1)); split; split;
    first [ by eauto | intros [s' [=]] | intros [=] ].
Qed.

(** X6. [Swap] exchanges the pointers of two handles and touches no block
    (no count changes); it does nothing if either pointer is nil; applied
    twice it restores the store. *)
Theorem Swap_involution s a b x y :
  arcs s !! a = Some x →
  arcs s !! b = Some y →
  ∃ s1,
    Swap a (Some b) s = Some (tt, s1) ∧
    blocks s1 = blocks s ∧
    (ptr x ≠ None → ptr y ≠ None →
       ptr_at a s1 = Some (ptr y) ∧ ptr_at b s1 = Some (ptr x)) ∧
    (ptr x = None ∨ ptr y = None → s1 = s) ∧
    Swap a (Some b) s1 = Some (tt, s).
Proof.
  intros Ha Hb. destruct x as [p], y as [q].
  assert (Hnoop : p = None ∨ q = None → Swap a (Some b) s = Some (tt, s)).
  { intros Hnil. unfold Swap, bind. rewrite (get_ptr_eq _ _ _ Ha).
    destruct p as [p|]; [|done]. rewrite (get_ptr_eq _ _ _ Hb).
    destruct q as [q|]; [|done]. by destruct Hnil. }
  destruct p as [p|]; [destruct q as [q|]|].
  2,3: exists s; rewrite Hnoop by auto; simpl;
    (split; [done|]); (split; [done|]); (split; [intros H1 H2; congruence|]);
    by split.
  set (s1 := MkStore (blocks s)
               (<[b:=MkArc (Some p)]> (<[a:=MkArc (Some q)]> (arcs s))) (weaks s)).
  assert (Hswap : Swap a (Some b) s = Some (tt, s1)).
  { unfold Swap, bind. rewrite (get_ptr_eq _ _ _ Ha), (get_ptr_eq _ _ _ Hb).
    rewrite (set_ptr_eq _ _ _ _ Ha).
    erewrite set_ptr_eq; [done|]. cbn [arcs].
    destruct (decide (a = b)) as [->|Hne].
    - eapply lookup_insert_here, Hb.
    - rewrite list_lookup_insert_ne by done. apply Hb. }
  assert (Ha1 : arcs s1 !! a = Some (MkArc (Some q))).
  { cbn [arcs s1]. destruct (decide (a = b)) as [->|Hne].
    - rewrite Ha in Hb. injection Hb as ->.
      eapply lookup_insert_here, lookup_insert_here, Ha.
    - rewrite list_lookup_insert_ne by done. eapply lookup_insert_here, Ha. }
  assert (Hb1 : arcs s1 !! b = Some (MkArc (Some p))).
  { cbn [arcs s1]. apply list_lookup_insert_eq. rewrite length_insert.
    eapply lookup_lt_Some, Hb. }
  exists s1. split; [done|]. split; [done|].
  split. { intros _ _. unfold ptr_at. by rewrite Ha1, Hb1. }
  split. { by intros [[=]|[=]]. }
  unfold Swap, bind. rewrite (get_ptr_eq _ _ _ Ha1), (get_ptr_eq _ _ _ Hb1).
  rewrite (set_ptr_eq _ _ _ _ Ha1).
  erewrite set_ptr_eq; last first.
  { cbn [arcs]. destruct (decide (a = b)) as [->|Hne].
    - eapply lookup_insert_here, Hb1.
    - rewrite list_lookup_insert_ne by done. apply Hb1. }
  cbn [blocks arcs weaks s1]. do 2 f_equal.
  rewrite <- (store_eta s) at 4. f_equal.
  destruct (decide (a = b)) as [->|Hne].
  - rewrite Ha in Hb. injection Hb as ->.
    rewrite !insert_insert_here. by apply list_insert_id.
  - rewrite (list_insert_insert_ne _ a b) by done.
    rewrite !insert_insert_here.
    by rewrite (list_insert_id _ _ _ Ha), (list_insert_id _ _ _ Hb).
Qed.

(** X7. [Reset] through a handle that points to a block detaches the
    handle: it gives up one count of the old block, then points to a block
    that was not in use, with count 1 and the new value.  The old block
    keeps its value and every other handle keeps its pointer. *)
Theorem Reset_detaches s a l v c v' :
  arcs s !! a = Some (MkArc (Some l)) →
  blocks s !! l = Some (ArcInternal v c) →
  ∃ l' s',
    Reset a v' s = Some (tt, s') ∧
    blocks s !! l' = None ∧
    Deref a s' = Some (Some l', s') ∧
    load_data (Some l') s' = Some (v', s') ∧
    StrongCount a s' = Some (1, s') ∧
    blocks s' !! l = Some (ArcInternal v (Int64.wrap (c + -1))) ∧
    ∀ b, b ≠ a → arcs s' !! b = arcs s !! b.
Proof.
  intros Ha Hl.
  set (s' := MkStore (<[l:=ArcInternal v (Int64.wrap (c + -1))]> (blocks s)
                        ++ [ArcInternal v' 1])
                     (<[a:=MkArc (Some (length (blocks s)))]> (arcs s)) (weaks s)).
  assert (Hreset : Reset a v' s = Some (tt, s')).
  { unfold Reset, bind. rewrite (Drop_eq _ _ _ _ _ Ha Hl).
    unfold new_internal. cbn [blocks arcs weaks].
    rewrite length_insert.
    destruct (decide (Int64.wrap (c + -1) = 0)).
    - erewrite set_ptr_eq by (cbn [arcs]; eapply lookup_insert_here, Ha).
      cbn [blocks arcs weaks]. by rewrite insert_insert_here.
    - by erewrite set_ptr_eq by (cbn [arcs]; apply Ha). }
  assert (Ha' : arcs s' !! a = Some (MkArc (Some (length (blocks s))))).
  { eapply lookup_insert_here, Ha. }
  assert (Hl' : blocks s' !! length (blocks s) = Some (ArcInternal v' 1)).
  { cbn [blocks s']. apply list_lookup_middle. by rewrite length_insert. }
  exists (length (blocks s)), s'.
  split; [done|].
  split. { apply lookup_ge_None. lia. }
  split. { by apply Deref_eq. }
  split. { by apply load_data_eq with 1. }
  split. { by apply StrongCount_eq with (length (blocks s)) v'. }
  split.
  - cbn [blocks s']. apply lookup_app_l_Some. eapply lookup_insert_here, Hl.
  - intros b Hb. cbn [arcs s']. by rewrite list_lookup_insert_ne.
Qed.

(** X8. A weak handle does not keep the cell alive: once the sole owner
    has dropped its handle, or has taken the value out with [TryUnwrap],
    [Upgrade] returns nil and leaves the store as it is. *)
Theorem Weak_does_not_keep_alive s a l v fuel :
  arcs s !! a = Some (MkArc (Some l)) →
  blocks s !! l = Some (ArcInternal v 1) →
  ∃ w s1 s2 s3,
    Downgrade a s = Some (Some w, s1) ∧
    Drop a s1 = Some (tt, s2) ∧
    Upgrade w s2 = Some (None, s2) ∧
    TryUnwrap zero (S fuel) a s1 = Some (Some (v, true), s3) ∧
    Upgrade w s3 = Some (None, s3).
Proof.
  intros Ha Hl.
  set (s1 := MkStore (blocks s) (arcs s) (weaks s ++ [MkWeak (Some l)])).
  set (s2 := MkStore (<[l:=ArcInternal v 0]> (blocks s))
                     (<[a:=MkArc None]> (arcs s)) (weaks s ++ [MkWeak (Some l)])).
  assert (Hw : weaks s2 !! length (weaks s) = Some (MkWeak (Some l))).
  { by apply list_lookup_middle. }
  assert (Hl2 : blocks s2 !! l = Some (ArcInternal v 0)).
  { eapply lookup_insert_here, Hl. }
  assert (Hup : Upgrade (length (weaks s)) s2 = Some (None, s2)).
  { rewrite (Upgrade_eq _ _ _ _ _ Hw Hl2).
    change (Int64.wrap (0 + 1)) with 1. rewrite decide_False by lia.
    change (Int64.wrap (1 + -1)) with 0.
    cbn [blocks arcs weaks s2]. by rewrite insert_insert_here. }
  exists (length (weaks s)), s1, s2, s2.
  split. { unfold Downgrade, bind. by rewrite (get_ptr_eq _ _ _ Ha). }
  split. { by rewrite (Drop_eq s1 _ _ _ _ Ha Hl). }
  split; [done|]. split; [|done].
  rewrite (TryUnwrap_eq fuel s1 _ _ _ _ Ha Hl). by rewrite decide_True.
Qed.

(** X9. On a live block whose count is below the largest [int64],
    [Upgrade] through a weak handle does what [Clone] through a strong handle
    to the same block does: the same new handle, the same store.  At the
    largest count they differ: [Clone] still returns a new handle, whereas
    [Upgrade] returns nil and leaves the store as it is. *)
Theorem Upgrade_like_Clone s a w l v c :
  arcs s !! a = Some (MkArc (Some l)) →
  weaks s !! w = Some (MkWeak (Some l)) →
  blocks s !! l = Some (ArcInternal v c) →
  1 ≤ c ≤ Int64.max_int →
  (∃ a' s', Clone a s = Some (Some a', s')) ∧
  (c < Int64.max_int → Upgrade w s = Clone a s) ∧
  (c = Int64.max_int → Upgrade w s = Some (None, s)).
Proof.
  intros Ha Hw Hl Hc.
  rewrite (Upgrade_eq _ _ _ _ _ Hw Hl), (Clone_eq _ _ _ _ _ Ha Hl).
  split; [by eexists _, _|]. split.
  - intros Hlt. rewrite wrap_succ by lia. by rewrite decide_True by lia.
  - intros ->. rewrite decide_False by done.
    change (Int64.wrap (Int64.wrap (Int64.max_int + 1) + -1)) with Int64.max_int.
    rewrite (list_insert_id _ _ _ Hl). by rewrite store_eta.
Qed.

(** X10. On a live block, at every count up to the largest [int64], [AsRef]
    adds one to the count as an [int64] (one more than before below the
    largest count) and [Release] of the [Ref] takes it off again: every block
    is as before.  [Release] leaves nil in the [Ref], so that a second
    [Release] and a later [Deref] through the [Ref] do nothing and return
    nil. *)
Theorem Ref_Release_once s a l v c :
  arcs s !! a = Some (MkArc (Some l)) →
  blocks s !! l = Some (ArcInternal v c) →
  1 ≤ c ≤ Int64.max_int →
  ∃ a' s1 s2,
    AsRef a s = Some (Some (Some a'), s1) ∧
    ref_at l s1 = Some (Int64.wrap (c + 1)) ∧
    (c < Int64.max_int → Int64.wrap (c + 1) = c + 1) ∧
    Ref_Deref (Some a') s1 = Some (Some l, s1) ∧
    Ref_Release (Some a') s1 = Some (None, s2) ∧
    blocks s2 = blocks s ∧
    (let! r := Ref_Release (Some a') in Ref_Release r) s1 = Some (None, s2) ∧
    (let! r := Ref_Release (Some a') in Ref_Deref r) s1 = Some (None, s2).
Proof.
  intros Ha Hl Hc.
  pose proof (Clone_eq _ _ _ _ _ Ha Hl) as Hclone.
  set (s1 := MkStore (<[l:=ArcInternal v (Int64.wrap (c + 1))]> (blocks s))
                     (arcs s ++ [MkArc (Some l)]) (weaks s)) in *.
  assert (Ha' : arcs s1 !! length (arcs s) = Some (MkArc (Some l))).
  { by apply list_lookup_middle. }
  assert (Hl1 : blocks s1 !! l = Some (ArcInternal v (Int64.wrap (c + 1)))).
  { eapply lookup_insert_here, Hl. }
  pose proof (Drop_eq s1 _ _ _ _ Ha' Hl1) as Hdrop.
  rewrite wrap_succ_pred in Hdrop by (apply in_range_of; unfold Int64.min_int; lia).
  rewrite decide_False in Hdrop by lia.
  set (s2 := MkStore (<[l:=ArcInternal v c]> (blocks s1)) (arcs s1) (weaks s1)) in *.
  assert (Hrel : Ref_Release (Some (length (arcs s))) s1 = Some (None, s2)).
  { unfold Ref_Release, bind. by rewrite Hdrop. }
  exists (length (arcs s)), s1, s2.
  split. { unfold AsRef, bind. rewrite (get_ptr_eq _ _ _ Ha). by rewrite Hclone. }
  split. { unfold ref_at. by rewrite Hl1. }
  split. { intros Hlt. apply wrap_succ. lia. }
  split. { by apply Deref_eq. }
  split; [done|].
  split.
  { cbn [blocks s2 s1]. rewrite insert_insert_here. by apply list_insert_id. }
  split; unfold bind; by rewrite Hrel.
Qed.

Lemma MergeArcs_loop_values (handles : list (option nat)) :
  ∀ (pre : list T) s,
    Forall (λ arc, ∀ a, arc = Some a →
              ∃ l b, arcs s !! a = Some (MkArc (Some l)) ∧ blocks s !! l = Some b)
           handles →
    MergeArcs_loop (length pre) handles (pre ++ replicate (length handles) zero) s =
      Some (pre ++ (merged_value zero s <$> handles), s).
Proof.
  induction handles as [|arc rest IH]; intros pre s Hall.
  - done.
  - inversion Hall as [|arc0 rest0 Harc Hrest]; subst arc0 rest0.
    cbn [MergeArcs_loop length replicate fmap list_fmap].
    destruct arc as [a|].
    + destruct (Harc a eq_refl) as (l & [v c] & Ha & Hl).
      unfold bind. rewrite (Deref_eq _ _ _ Ha), (load_data_eq _ _ _ _ Hl).
      rewrite insert_app_r_alt by lia. rewrite Nat.sub_diag. cbn [insert list_insert].
      specialize (IH (pre ++ [v]) s Hrest).
      rewrite length_app, Nat.add_1_r, <- app_assoc in IH. cbn [app] in IH.
      rewrite IH, <- app_assoc. cbn [app merged_value]. by rewrite Ha, Hl.
    + specialize (IH (pre ++ [zero]) s Hrest).
      rewrite length_app, Nat.add_1_r, <- app_assoc in IH. cbn [app] in IH.
      by rewrite IH, <- app_assoc.
Qed.

(** X11. When every non-nil argument of [MergeArcs] is a handle that points
    to a block, the new cell holds the contents of those blocks in argument
    order, with the zero value at the place of each nil argument; the cells
    read are left as they are (no count changes). *)
Theorem MergeArcs_in_order (handles : list (option nat)) s (su : Store (list T)) :
  Forall (λ arc, ∀ a, arc = Some a →
            ∃ l b, arcs s !! a = Some (MkArc (Some l)) ∧ blocks s !! l = Some b)
         handles →
  MergeArcs_values zero handles s = Some (merged_value zero s <$> handles, s) ∧
  MergeArcs zero handles s su = NewArc (merged_value zero s <$> handles) su.
Proof.
  intros Hall.
  pose proof (MergeArcs_loop_values handles [] s Hall) as Hloop.
  cbn [length app] in Hloop.
  assert (Hvalues : MergeArcs_values zero handles s =
                      Some (merged_value zero s <$> handles, s)) by exact Hloop.
  split; [done|]. unfold MergeArcs. by rewrite Hvalues.
Qed.

Lemma MergeArcs_loop_panics (handles : list (option nat)) :
  ∀ i (values : list T) s a,
    Some a ∈ handles →
    arcs s !! a = Some (MkArc None) →
    MergeArcs_loop i handles values s = None.
Proof.
  induction handles as [|arc rest IH]; intros i values s a Hin Ha.
  - by apply not_elem_of_nil in Hin.
  - cbn [MergeArcs_loop]. apply elem_of_cons in Hin as [<-|Hin].
    + unfold bind. by rewrite (Deref_eq _ _ _ Ha).
    + destruct arc as [a0|]; [|by eapply IH].
      unfold bind, Deref, bind, get_ptr.
      destruct (arcs s !! a0) as [[[l|]]|]; cbn [ptr ret load_data panic];
        [|done..].
      unfold bind, load_internal.
      destruct (blocks s !! l) as [b|]; [|done].
      cbn [ret]. by eapply IH.
Qed.

(** X12. [MergeArcs] panics as soon as one of its arguments is a handle
    whose pointer is nil (a handle invalidated by [Drop] or [TryUnwrap]),
    wherever it stands among the arguments. *)
Theorem MergeArcs_panics (handles : list (option nat)) s (su : Store (list T)) a :
  Some a ∈ handles →
  arcs s !! a = Some (MkArc None) →
  MergeArcs zero handles s su = None.
Proof.
  intros Hin Ha. unfold MergeArcs, MergeArcs_values.
  by rewrite (MergeArcs_loop_panics handles _ _ _ _ Hin Ha).
Qed.

Lemma ArcSlice_loop_eq (values : list T) :
  ∀ (pre : list (option nat)) s,
    ArcSlice_loop (length pre) values (pre ++ replicate (length values) None) s =
      Some (pre ++ imap (λ i _, Some (length (arcs s) + i)%nat) values,
            MkStore (blocks s ++ ((λ v, ArcInternal v 1) <$> values))
                    (arcs s ++ imap (λ i _, MkArc (Some (length (blocks s) + i)%nat)) values)
                    (weaks s)).
Proof.
  induction values as [|v rest IH]; intros pre s.
  - cbn. rewrite !app_nil_r. by rewrite store_eta.
  - cbn [ArcSlice_loop length replicate]. unfold bind. rewrite NewArc_eq.
    rewrite insert_app_r_alt by lia. rewrite Nat.sub_diag. cbn [insert list_insert].
    specialize (IH (pre ++ [Some (length (arcs s))])
                   (MkStore (blocks s ++ [ArcInternal v 1])
                            (arcs s ++ [MkArc (Some (length (blocks s)))]) (weaks s))).
    rewrite length_app, Nat.add_1_r, <- app_assoc in IH. cbn [app] in IH.
    rewrite IH. cbn [blocks arcs weaks].
    rewrite !imap_cons, fmap_cons, <- !app_assoc. cbn [app].
    rewrite !Nat.add_0_r.
    assert (Hf : imap (λ i (_ : T), Some (length (arcs s ++ [MkArc (Some (length (blocks s)))]) + i)%nat) rest
                 = imap ((λ i (_ : T), Some (length (arcs s) + i)%nat) ∘ S) rest).
    { apply imap_ext. intros i x _. cbn. rewrite length_app. cbn. f_equal. lia. }
    assert (Hg : imap (λ i (_ : T), MkArc (Some (length (blocks s ++ [ArcInternal v 1]) + i)%nat)) rest
                 = imap ((λ i (_ : T), MkArc (Some (length (blocks s) + i)%nat)) ∘ S) rest).
    { apply imap_ext. intros i x _. cbn. rewrite length_app. cbn. do 2 f_equal. lia. }
    by rewrite Hf, Hg.
Qed.

(** X13. [ArcSlice] creates one cell per value, in order: handle [i] of the
    result is a new handle to a new block of its own with count 1 that holds
    [values[i]]; the blocks and handles already in the store are untouched. *)
Theorem ArcSlice_cells (values : list T) s :
  ∃ handles s',
    ArcSlice values s = Some (handles, s') ∧
    length handles = length values ∧
    (∀ i v, values !! i = Some v →
       let a := (length (arcs s) + i)%nat in
       let l := (length (blocks s) + i)%nat in
       handles !! i = Some (Some a) ∧
       Deref a s' = Some (Some l, s') ∧
       load_data (Some l) s' = Some (v, s') ∧
       StrongCount a s' = Some (1, s')) ∧
    (∀ l b, blocks s !! l = Some b → blocks s' !! l = Some b) ∧
    (∀ a x, arcs s !! a = Some x → arcs s' !! a = Some x).
Proof.
  pose proof (ArcSlice_loop_eq values [] s) as Hloop. cbn [length app] in Hloop.
  eexists _, _. split; [exact Hloop|].
  split. { by rewrite length_imap. }
  split.
  - intros i v Hv a l.
    assert (Ha : (arcs s ++ imap (λ i _, MkArc (Some (length (blocks s) + i)%nat)) values)
                   !! a = Some (MkArc (Some l))).
    { unfold a. rewrite lookup_app_r by lia.
      replace (length (arcs s) + i - length (arcs s))%nat with i by lia.
      by rewrite list_lookup_imap, Hv. }
    assert (Hl : (blocks s ++ ((λ v, ArcInternal v 1) <$> values)) !! l
                 = Some (ArcInternal v 1)).
    { unfold l. rewrite lookup_app_r by lia.
      replace (length (blocks s) + i - length (blocks s))%nat with i by lia.
      by rewrite list_lookup_fmap, Hv. }
    split. { by rewrite list_lookup_imap, Hv. }
    split. { by apply Deref_eq. }
    split. { by apply load_data_eq with 1. }
    by apply StrongCount_eq with l v.
  - split.
    + intros l b Hb. by apply lookup_app_l_Some.
    + intros a x Hx. by apply lookup_app_l_Some.
Qed.













End ArcMore.

(** * Further properties of the futures *)

Section FutureMore.

Local Open Scope nat_scope.

Context {T : Type}.
Variable zero : T.

(** X15. A future whose [Cancel] is called no later than its goroutine
    starts never runs its function: it completes at once with the zero value
    and the error of the cancelled context, even for a function that would
    block forever.  A [Cancel] that comes after the start changes neither
    the result, nor the completion instant, nor the error. *)
Theorem Cancel_only_before_start (fn : Blocking T) start c :
  (c ≤ start →
     New zero (Some c) start fn = FutureImpl (Some c) zero (Some start) (Some Canceled)) ∧
  (start < c →
     New zero (Some c) start fn =
       FutureImpl (Some c) (result (New zero None start fn))
                  (done (New zero None start fn)) (err (New zero None start fn))).
Proof.
  unfold New, NewWithContext, execute, WithCancel, Background, ready.
  split; intros Hc.
  - by rewrite bool_decide_eq_true_2.
  - rewrite bool_decide_eq_false_2 by lia.
    by destruct (fn start) as [[v t]|].
Qed.

Lemma All_loop_instant (futures : list (futureImpl T)) :
  ∀ i results now r t,
    All_loop i futures results now = Some (r, t) →
    t = now ∨ ∃ f, f ∈ futures ∧ done f = Some t.
Proof.
  induction futures as [|f rest IH]; intros i results now r t Hloop.
  - injection Hloop as <- <-. by left.
  - cbn [All_loop] in Hloop. unfold bbind at 1 in Hloop. rewrite Get_eq in Hloop.
    destruct (done f) as [d|] eqn:Hd; [|done].
    destruct (IH _ _ _ _ _ Hloop) as [->|(g & Hg & Hdone)].
    + destruct (Nat.max_spec now d) as [[_ ->]|[_ ->]].
      * right. exists f. split; [left|done].
      * by left.
    + right. exists g. split; [by right|done].
Qed.

(** X16. [All] adds no delay: unless cancelled before its goroutine
    starts, and if every input completes, it completes at the instant the
    last input does, or at its own start when that is later. *)
Theorem All_completes_with_last cancel start (futures : list (futureImpl T)) :
  ready (WithCancel Background cancel) start = false →
  (∀ f, f ∈ futures → is_Some (done f)) →
  ∃ t, done (All zero cancel start futures) = Some t ∧
       start ≤ t ∧
       (∀ f d, f ∈ futures → done f = Some d → d ≤ t) ∧
       (t = start ∨ ∃ f, f ∈ futures ∧ done f = Some t).
Proof.
  intros Hrun Hdone.
  unfold All, New, NewWithContext, execute. rewrite Hrun.
  pose proof (All_loop_spec futures 0 (replicate (length futures) zero) start) as Hloop.
  rewrite length_replicate in Hloop. specialize (Hloop eq_refl).
  pose proof (All_loop_instant futures 0 (replicate (length futures) zero) start) as Hinst.
  destruct (All_loop 0 futures (replicate (length futures) zero) start)
    as [[r t]|].
  - destruct Hloop as (_ & Ht & Hall). exists t. cbn [done].
    split; [done|]. split; [done|]. split.
    + intros f d Hf Hd. rewrite Forall_forall in Hall.
      destruct (Hall f) as (d' & Hd' & Hle); [by apply list_elem_of_In|].
      congruence.
    + by eapply Hinst.
  - destruct Hloop as (g & Hg & Hnone).
    destruct (Hdone g Hg) as [d Hd]. congruence.
Qed.

Ltac select_cases f :=
  unfold select, select_instant, After, can_proceed;
  destruct (done f) as [?d|] eqn:?Hdone, (ctx f) as [?c|] eqn:?Hctx;
  cbn -[Nat.max Nat.min Z.to_nat];
  repeat case_bool_decide;
  cbn [fmap list_fmap].

Ltac elem_cases H :=
  repeat (apply elem_of_cons in H as [H|H]);
  [..|by apply not_elem_of_nil in H]; simplify_eq.

(** X17. [GetWithTimeout] always returns, no later than the deadline.  It
    returns [true] only with the stored result and only once the future is
    done; it returns [false] only with the zero value, and only at the
    deadline or once the context is cancelled. *)
Theorem GetWithTimeout_outcomes (f : futureImpl T) timeout now :
  GetWithTimeout zero f timeout now ≠ [] ∧
  ∀ v ok t, ((v, ok), t) ∈ GetWithTimeout zero f timeout now →
    now ≤ t ≤ now + Z.to_nat timeout ∧
    (ok = true → v = result f ∧ ∃ d, done f = Some d ∧ d ≤ t) ∧
    (ok = false → v = zero ∧
       (t = now + Z.to_nat timeout ∨ ∃ c, ctx f = Some c ∧ c ≤ t)).
Proof.
  unfold GetWithTimeout. split.
  - select_cases f; try done; lia.
  - intros v ok t. select_cases f; intros Hin; try (exfalso; lia); elem_cases Hin;
      (split; [lia|]); (split; intros [=]);
      (split; [done|]); first [ by eexists; split; [done|lia] | left; lia | right; by eexists; split; [done|lia] ].
Qed.

(** X18. The two determinate cases of [GetWithTimeout].  On a future that
    is done when the call is made, whose context is not cancelled by then,
    and with a positive timeout, it returns the result at once.  On a future
    that is neither done nor cancelled by the deadline, it returns the zero
    value and [false] exactly at the deadline. *)
Theorem GetWithTimeout_determinate (f : futureImpl T) timeout now :
  (∀ d, done f = Some d → d ≤ now → (0 < timeout)%Z → ready (ctx f) now = false →
        GetWithTimeout zero f timeout now = [((result f, true), now)]) ∧
  (ready (done f) (now + Z.to_nat timeout) = false →
   ready (ctx f) (now + Z.to_nat timeout) = false →
        GetWithTimeout zero f timeout now = [((zero, false), now + Z.to_nat timeout)]).
Proof.
  unfold GetWithTimeout, ready. split.
  - intros d Hd Hle Hpos Hctx. select_cases f; simplify_eq;
      try case_bool_decide; simplify_eq; first [done | exfalso; lia | idtac].
    all: do 3 f_equal; lia.
  - intros Hdone Hctx. select_cases f; simplify_eq;
      repeat case_bool_decide; simplify_eq; first [done | exfalso; lia | idtac].
    all: do 3 f_equal; lia.
Qed.

(** X19. Once a completed future has been cancelled, [GetWithTimeout] may
    take either branch of its [select]: it can return the result with
    [true], and it can return the zero value with [false]. *)
Theorem GetWithTimeout_after_cancel (f : futureImpl T) timeout now d c :
  done f = Some d → d ≤ now →
  ctx f = Some c → c ≤ now →
  ((result f, true), now) ∈ GetWithTimeout zero f timeout now ∧
  ((zero, false), now) ∈ GetWithTimeout zero f timeout now.
Proof.
  intros Hd Hle Hc Hlec. unfold GetWithTimeout.
  select_cases f; simplify_eq; try (exfalso; lia).
  all: match goal with
       | |- context [?x `min` (?y `min` ?z)] =>
           replace (x `min` (y `min` z)) with now by lia
       end.
  all: split; repeat first [ by left | right ].
Qed.

(** X20. [Wait] with a timeout returns the flags that [GetWithTimeout]
    can return, at the same instants, and looks at its first timeout only.
    [Wait] without a timeout never returns [false]: it returns [true] once
    the future is done, and never returns if it never is. *)
Theorem Wait_outcomes (f : futureImpl T) timeout more now :
  Wait f (timeout :: more) now =
    (λ o, (o.1.2, o.2)) <$> GetWithTimeout zero f timeout now ∧
  Wait f [] now =
    match done f with
    | Some d => [(true, now `max` d)]
    | None => []
    end.
Proof.
  split.
  - unfold Wait, GetWithTimeout. rewrite <- list_fmap_compose.
    apply list_fmap_ext. intros _ [[|i] t] _; done.
  - unfold Wait, recv. by destruct (done f).
Qed.

End FutureMore.

Section FutureCompose.

Local Open Scope nat_scope.

Context {T U R : Type}.
Variables (zeroT : T) (zeroU : U) (zeroR : R).

(** X21. The combinators do not carry over the failure of an input.
    Unless it is itself cancelled before its goroutine starts, the future of
    [Then], [Map] or [All] has no error whatever the errors of its inputs;
    and [Then] on a future that was cancelled before it started completes
    normally, with [fn] applied to the zero value. *)
Theorem combinators_drop_input_errors cancel start (f : futureImpl T)
    (fn : T → U) (futures : list (futureImpl T)) :
  ready (WithCancel Background cancel) start = false →
  err (Then zeroU cancel start f fn) = None ∧
  err (Map zeroU cancel start f fn) = None ∧
  err (All zeroT cancel start futures) = None ∧
  ∀ (fn0 : Blocking T) c start0,
    c ≤ start0 →
    err (New zeroT (Some c) start0 fn0) = Some Canceled ∧
    Then zeroU cancel start (New zeroT (Some c) start0 fn0) fn =
      FutureImpl (WithCancel Background cancel) (fn zeroT)
                 (Some (start `max` start0)) None.
Proof.
  intros Hrun.
  split; [|split; [|split]].
  - unfold Then, New, NewWithContext, execute. rewrite Hrun.
    by destruct (bbind _ _ start) as [[? ?]|].
  - unfold Map, New, NewWithContext, execute. rewrite Hrun.
    by destruct (bbind _ _ start) as [[? ?]|].
  - unfold All, New, NewWithContext, execute. rewrite Hrun.
    by destruct (All_loop _ _ _ start) as [[? ?]|].
  - intros fn0 c start0 Hc.
    assert (Hf : New zeroT (Some c) start0 fn0 =
                   FutureImpl (Some c) zeroT (Some start0) (Some Canceled)).
    { unfold New, NewWithContext, execute, WithCancel, Background, ready.
      by rewrite bool_decide_eq_true_2. }
    rewrite Hf. split; [done|].
    unfold Then, New, NewWithContext, execute. rewrite Hrun.
    unfold bbind. by rewrite Get_eq.
Qed.

Lemma Map_uncancelled {A B} (z : B) start (f : futureImpl A) (g : A → B) :
  Map z None start f g =
    match done f with
    | Some d => FutureImpl None (g (result f)) (Some (start `max` d)) None
    | None => FutureImpl None z None None
    end.
Proof.
  unfold Map, New, NewWithContext, execute, WithCancel, Background, ready.
  unfold bbind. rewrite Get_eq. by destruct (done f).
Qed.

(** X22. [Map] composes: when no cancellation comes in, mapping [g] and
    then [h] gives the value that mapping their composition gives, and a
    mapped future completes when its input does (or when its own goroutine
    starts, if later); it never completes if the input never does. *)
Theorem Map_composes start1 start2 start3 (f : futureImpl T)
    (g : T → U) (h : U → R) :
  (∀ d, done f = Some d →
     Map zeroR None start2 (Map zeroU None start1 f g) h =
       FutureImpl None (h (g (result f))) (Some (start2 `max` (start1 `max` d))) None ∧
     Map zeroR None start3 f (h ∘ g) =
       FutureImpl None (h (g (result f))) (Some (start3 `max` d)) None) ∧
  (done f = None →
     done (Map zeroR None start2 (Map zeroU None start1 f g) h) = None ∧
     done (Map zeroR None start3 f (h ∘ g)) = None).
Proof.
  rewrite !Map_uncancelled. split.
  - intros d Hd. by rewrite Hd.
  - intros Hd. by rewrite Hd.
Qed.

(** X23. A future of two results behaves as a future of their pair: built
    by [New2] it has the fields that [New] gives for the same function,
    [Get] returns the two results together, and [Then2] is [Then] on the
    pair. *)
Theorem Future2_as_pair cancel start (fn : Blocking (T * U))
    (f2 : futureImpl2 T U) (k : T → U → R) now :
  paired (New2 zeroT zeroU cancel start fn) = New (zeroT, zeroU) cancel start fn ∧
  Get2 f2 now = Get (paired f2) now ∧
  Then2 zeroR cancel start f2 k = Then zeroR cancel start (paired f2) (λ p, k p.1 p.2).
Proof.
  split; [|split].
  - unfold New2, New2WithContext, execute2, New, NewWithContext, execute, paired.
    destruct (ready _ start); [done|].
    by destruct (fn start) as [[[v1 v2] t]|].
  - done.
  - unfold Then2, Then, New, NewWithContext, execute.
    destruct (ready _ start); [done|].
    unfold bbind, Get2, Get, bbind, recv, paired. cbn [done result].
    by destruct (done2 f2).
Qed.

End FutureCompose.

(** * Properties of [Option] and [Result] *)

Section OptionFacts.

Context {T U R E F : Type}.
Context `{!opt.Zero T} `{!opt.Zero U} `{!opt.Zero R} `{!opt.Zero E} `{!opt.Zero F}.

Ltac break_option :=
  repeat match goal with
         | o : opt.Option _ |- _ => destruct o as [? [|]]
         | r : opt.Result _ _ |- _ => destruct r as [? ? [|]]
         | p : opt.Pair _ _ |- _ => destruct p as [? ?]
         | b : bool |- _ => destruct b
         end.

(** X24. The package keeps its values canonical: on canonical arguments
    (an absent [Option] carries the zero value, a [Result] the zero value in
    its unused field) every constructor and combinator returns a canonical
    value. *)
Theorem results_are_canonical (o o' : opt.Option T) (oo : opt.Option (opt.Option T))
    (op : opt.Option (opt.Pair T U)) (ou : opt.Option U)
    (r : opt.Result T E) (v : T) (e : E) (ptr : option T)
    (f : T → U) (g : T → opt.Option U) (k : unit → opt.Option T)
    (p : T → bool) (h : E → F) (gr : T → opt.Result U E)
    (kr : E → opt.Result T F) :
  opt.Option_canonical o → opt.Option_canonical o' →
  opt.Option_canonical ou → opt.Option_canonical op →
  (opt.present oo = true → opt.Option_canonical (opt.value oo)) →
  (∀ x, opt.Option_canonical (g x)) → opt.Option_canonical (k tt) →
  opt.Result_canonical r →
  (∀ x, opt.Result_canonical (gr x)) → (∀ x, opt.Result_canonical (kr x)) →
  opt.Option_canonical (opt.Some_ v) ∧
  opt.Option_canonical (opt.None_ (T:=T)) ∧
  opt.Option_canonical (opt.Map o f) ∧
  opt.Option_canonical (opt.AndThen o g) ∧
  opt.Option_canonical (opt.Or o o') ∧
  opt.Option_canonical (opt.OrElse o k) ∧
  opt.Option_canonical (opt.And o o') ∧
  opt.Option_canonical (opt.Filter o p) ∧
  opt.Option_canonical (opt.Flatten oo) ∧
  opt.Option_canonical (opt.FromPtr ptr) ∧
  opt.Option_canonical (opt.FromResult r) ∧
  opt.Option_canonical (opt.Result_ToOption r) ∧
  opt.Option_canonical (opt.Zip o ou) ∧
  opt.Option_canonical (opt.Unzip op).1 ∧
  opt.Option_canonical (opt.Unzip op).2 ∧
  opt.Result_canonical (opt.ToResult o e) ∧
  opt.Result_canonical (opt.Ok (E:=E) v) ∧
  opt.Result_canonical (opt.Err (T:=T) e) ∧
  opt.Result_canonical (opt.MapResult r f) ∧
  opt.Result_canonical (opt.MapErr r h) ∧
  opt.Result_canonical (opt.AndThenResult r gr) ∧
  opt.Result_canonical (opt.OrElseResult r kr).
Proof.
  unfold opt.Option_canonical, opt.Result_canonical.
  intros Ho Ho' Hou Hop Hoo Hg Hk Hr Hgr Hkr.
  repeat split;
    unfold opt.Some_, opt.None_, opt.Map, opt.AndThen, opt.Or, opt.OrElse, opt.And,
      opt.Filter, opt.Flatten, opt.FromPtr, opt.FromResult, opt.Result_ToOption,
      opt.Zip, opt.Unzip, opt.ToResult, opt.Ok, opt.Err, opt.MapResult, opt.MapErr,
      opt.AndThenResult, opt.OrElseResult, opt.Some_, opt.None_;
    try destruct ptr;
    try destruct (p (opt.value o));
    break_option; cbn in *; auto; try done;
    first [ apply Hgr | apply Hkr ].
Qed.

(** X25. [AndThen] with [Some] and [AndThenResult] with [Ok] satisfy the
    monad laws on canonical values, and [AndThen] is [Flatten] after [Map]. *)
Theorem AndThen_laws (o : opt.Option T) (r : opt.Result T E) (v : T)
    (f : T → opt.Option U) (g : U → opt.Option R)
    (fr : T → opt.Result U E) (gr : U → opt.Result R E) :
  opt.Option_canonical o → opt.Result_canonical r →
  opt.AndThen (opt.Some_ v) f = f v ∧
  opt.AndThen o opt.Some_ = o ∧
  opt.AndThen (opt.AndThen o f) g = opt.AndThen o (λ x, opt.AndThen (f x) g) ∧
  opt.AndThen o f = opt.Flatten (opt.Map o f) ∧
  opt.AndThenResult (opt.Ok v) fr = fr v ∧
  opt.AndThenResult r opt.Ok = r ∧
  opt.AndThenResult (opt.AndThenResult r fr) gr =
    opt.AndThenResult r (λ x, opt.AndThenResult (fr x) gr).
Proof.
  unfold opt.Option_canonical, opt.Result_canonical.
  intros Ho Hr.
  unfold opt.AndThen, opt.AndThenResult, opt.Flatten, opt.Map, opt.Some_, opt.Ok.
  break_option; cbn in *; repeat split; try done;
    f_equal; first [ solve [auto] | symmetry; solve [auto] ].
Qed.

(** X26. [Map] and [MapResult] preserve composition and, on canonical
    values, the identity; [Map] is [AndThen] with [Some]; [MapOr] is [Map]
    followed by [UnwrapOr]; [MapErr] and [MapResult] commute; and
    [MatchOption] is [MapOrElse] with the branches exchanged. *)
Theorem Map_laws (o : opt.Option T) (r : opt.Result T E)
    (f : T → U) (g : U → R) (h : E → F) (d : U) (k : unit → U) :
  opt.Option_canonical o → opt.Result_canonical r →
  opt.Map (opt.Map o f) g = opt.Map o (g ∘ f) ∧
  opt.Map o id = o ∧
  opt.Map o f = opt.AndThen o (λ x, opt.Some_ (f x)) ∧
  opt.MapOr o d f = opt.Option_UnwrapOr (opt.Map o f) d ∧
  opt.MatchOption o f k = opt.MapOrElse o k f ∧
  opt.MapResult (opt.MapResult r f) g = opt.MapResult r (g ∘ f) ∧
  opt.MapResult r id = r ∧
  opt.MapErr (opt.MapResult r f) h = opt.MapResult (opt.MapErr r h) f.
Proof.
  unfold opt.Option_canonical, opt.Result_canonical.
  intros Ho Hr.
  unfold opt.Map, opt.MapResult, opt.MapErr, opt.AndThen, opt.MapOr, opt.MapOrElse,
    opt.MatchOption, opt.Option_UnwrapOr, opt.Some_.
  break_option; cbn in *; repeat split; try done;
    f_equal; first [ solve [auto] | symmetry; solve [auto] ].
Qed.

(** X27. Conversions round-trip on canonical values: an [Option] survives
    [ToResult] then [FromResult] (or [ToOption]) and [ToPtr] then [FromPtr];
    an [Ok] result survives [FromResult] then [ToResult], whereas an [Err]
    becomes [None] and its error is lost. *)
Theorem conversions_round_trip (o : opt.Option T) (r : opt.Result T E) (e : E)
    (ptr : option T) :
  opt.Option_canonical o → opt.Result_canonical r →
  opt.FromResult (opt.ToResult o e) = o ∧
  opt.Result_ToOption (opt.ToResult o e) = o ∧
  opt.Result_ToOption r = opt.FromResult r ∧
  (opt.ok r = true → opt.ToResult (opt.FromResult r) e = r) ∧
  (opt.ok r = false → opt.FromResult r = opt.None_ ∧
                      opt.ToResult (opt.FromResult r) e = opt.Err e) ∧
  opt.FromPtr (opt.ToPtr o) = o ∧
  opt.ToPtr (opt.FromPtr ptr) = ptr.
Proof.
  unfold opt.Option_canonical, opt.Result_canonical.
  intros Ho Hr.
  unfold opt.FromResult, opt.Result_ToOption, opt.ToResult, opt.FromPtr, opt.ToPtr,
    opt.Some_, opt.None_, opt.Err.
  destruct ptr; break_option; cbn in *; repeat split; try done;
    intros; try done; f_equal; first [ solve [auto] | symmetry; solve [auto] ].
Qed.

(** X28. [Zip] after [Unzip] gives a canonical [Option] of pairs back.
    [Unzip] after [Zip] gives the two arguments back when both are present,
    and two absent [Option]s as soon as one is absent: the one that was
    present is lost. *)
Theorem Zip_Unzip (a : opt.Option T) (b : opt.Option U)
    (op : opt.Option (opt.Pair T U)) :
  opt.Option_canonical op →
  opt.Zip (opt.Unzip op).1 (opt.Unzip op).2 = op ∧
  opt.Unzip (opt.Zip a b) =
    if opt.present a && opt.present b then (a, b) else (opt.None_, opt.None_).
Proof.
  unfold opt.Option_canonical. intros Hop.
  unfold opt.Zip, opt.Unzip, opt.Some_, opt.None_.
  break_option; cbn in *; repeat split; try done;
    f_equal; first [ solve [auto] | symmetry; solve [auto] ].
Qed.

(** X29. [Unwrap] returns exactly on a present [Option], and then
    [UnwrapOr], [UnwrapOrElse] and [Expect] return the same value; it panics
    exactly on an absent one, and then [UnwrapOr] returns its default and
    [Expect] panics with its own message.  Of [Unwrap] and [UnwrapErr] on a
    [Result], exactly one returns. *)
Theorem Unwrap_cases (o : opt.Option T) (r : opt.Result T E)
    (d : T) (k : unit → T) (msg : String.string) :
  (∀ v, opt.Option_Unwrap o = opt.Returns v →
        opt.Option_IsSome o = true ∧
        opt.Option_UnwrapOr o d = v ∧ opt.Option_UnwrapOrElse o k = v ∧
        opt.Option_Expect o msg = opt.Returns v) ∧
  (∀ m, opt.Option_Unwrap o = opt.Panics m →
        opt.Option_IsNone o = true ∧
        opt.Option_UnwrapOr o d = d ∧ opt.Option_UnwrapOrElse o k = k tt ∧
        opt.Option_Expect o msg = opt.Panics msg) ∧
  ((∃ v, opt.Result_Unwrap r = opt.Returns v) ↔
   (∃ m, opt.Result_UnwrapErr r = opt.Panics m)) ∧
  ((∃ m, opt.Result_Unwrap r = opt.Panics m) ↔
   (∃ x, opt.Result_UnwrapErr r = opt.Returns x)).
Proof.
  unfold opt.Option_Unwrap, opt.Option_IsSome, opt.Option_IsNone,
    opt.Option_UnwrapOr, opt.Option_UnwrapOrElse, opt.Option_Expect,
    opt.Result_Unwrap, opt.Result_UnwrapErr.
  break_option; cbn; repeat split; intros; simplify_eq; try done;
    try (by eexists);
    match goal with Hx : ∃ _, _ |- _ => by destruct Hx as [? [=]] end.
Qed.

End OptionFacts.

(** * Concrete instances of the further properties *)


Lemma inputs_done : ∀ f, f ∈ [t1; t2; t3] → is_Some (done f).
Proof.
  intros f Hf. repeat (apply elem_of_cons in Hf as [->|Hf]); eauto.
  by apply not_elem_of_nil in Hf.
Qed.

Lemma Clone_shares_block_witness :
  arcs sole_owner !! 0%nat = Some (MkArc (Some 0%nat)) ∧
  blocks sole_owner !! 0%nat = Some (ArcInternal 7 1) ∧
  1 ≤ 1 ≤ Int64.max_int ∧
  ∃ a' s1 s2,
    Clone 0 sole_owner = Some (Some a', s1) ∧ a' ≠ 0%nat ∧
    With a' (call_on_data Z.succ) s1 = Some (true, s2) ∧
    Deref 0 s2 = Some (Some 0%nat, s2) ∧
    Deref a' s2 = Some (Some 0%nat, s2) ∧
    load_data (Some 0%nat) s2 = Some (Z.succ 7, s2) ∧
    StrongCount 0 s2 = Some (Int64.wrap (1 + 1), s2) ∧
    StrongCount a' s2 = Some (Int64.wrap (1 + 1), s2) ∧
    (1 < Int64.max_int → Int64.wrap (1 + 1) = 1 + 1) ∧
    (1 = Int64.max_int → Int64.wrap (1 + 1) = Int64.min_int).
Proof.
  split; [reflexivity|]. split; [reflexivity|]. split; [done|].
  apply (Clone_shares_block sole_owner 0%nat 0%nat 7 1 Z.succ);
    [reflexivity|reflexivity|done].
Defined.


Lemma GetMut_agrees_witness :
  (arcs sole_owner !! 0%nat = Some (MkArc (Some 0%nat))) ∧
  (blocks sole_owner !! 0%nat = Some (ArcInternal 7 1)) ∧
  (GetMut 0%nat sole_owner = Some (if decide (1 = 1) then Some 0%nat else None, sole_owner) ∧
    (GetMut 0%nat sole_owner = Some (Some 0%nat, sole_owner) ↔
       ∃ s', CompareAndSwap 0%nat 5 6 sole_owner = Some (true, s')) ∧
    (GetMut 0%nat sole_owner = Some (Some 0%nat, sole_owner) ↔
       ∃ s', TryUnwrap 0 (S 0%nat) 0%nat sole_owner = Some (Some (7, true), s'))).
Proof.
  split; [first [reflexivity | done | by vm_compute]|].
  split; [first [reflexivity | done | by vm_compute]|].
  apply (GetMut_agrees 0 sole_owner 0%nat 0%nat 7 1 0%nat 5 6);
    first [reflexivity | done | by vm_compute].
Defined.

Lemma Swap_involution_witness :
  (arcs two_cells !! 0%nat = Some (MkArc (Some 0%nat))) ∧
  (arcs two_cells !! 1%nat = Some (MkArc (Some 1%nat))) ∧
  (∃ s1,
      Swap 0%nat (Some 1%nat) two_cells = Some (tt, s1) ∧
      blocks s1 = blocks two_cells ∧
      (ptr (MkArc (Some 0%nat)) ≠ None → ptr (MkArc (Some 1%nat)) ≠ None →
         ptr_at 0%nat s1 = Some (ptr (MkArc (Some 1%nat))) ∧ ptr_at 1%nat s1 = Some (ptr (MkArc (Some 0%nat)))) ∧
      (ptr (MkArc (Some 0%nat)) = None ∨ ptr (MkArc (Some 1%nat)) = None → s1 = two_cells) ∧
      Swap 0%nat (Some 1%nat) s1 = Some (tt, two_cells)).
Proof.
  split; [first [reflexivity | done | by vm_compute]|].
  split; [first [reflexivity | done | by vm_compute]|].
  apply (Swap_involution two_cells 0%nat 1%nat (MkArc (Some 0%nat)) (MkArc (Some 1%nat)));
    first [reflexivity | done | by vm_compute].
Defined.

Lemma Reset_detaches_witness :
  (arcs two_handles_one_count !! 0%nat = Some (MkArc (Some 0%nat))) ∧
  (blocks two_handles_one_count !! 0%nat = Some (ArcInternal 7 1)) ∧
  (∃ l' s',
      Reset 0%nat 9 two_handles_one_count = Some (tt, s') ∧
      blocks two_handles_one_count !! l' = None ∧
      Deref 0%nat s' = Some (Some l', s') ∧
      load_data (Some l') s' = Some (9, s') ∧
      StrongCount 0%nat s' = Some (1, s') ∧
      blocks s' !! 0%nat = Some (ArcInternal 7 (Int64.wrap (1 + -1))) ∧
      ∀ b, b ≠ 0%nat → arcs s' !! b = arcs two_handles_one_count !! b).
Proof.
  split; [first [reflexivity | done | by vm_compute]|].
  split; [first [reflexivity | done | by vm_compute]|].
  apply (Reset_detaches two_handles_one_count 0%nat 0%nat 7 1 9);
    first [reflexivity | done | by vm_compute].
Defined.

Lemma Weak_does_not_keep_alive_witness :
  (arcs sole_owner !! 0%nat = Some (MkArc (Some 0%nat))) ∧
  (blocks sole_owner !! 0%nat = Some (ArcInternal 7 1)) ∧
  (∃ w s1 s2 s3,
      Downgrade 0%nat sole_owner = Some (Some w, s1) ∧
      Drop 0%nat s1 = Some (tt, s2) ∧
      Upgrade w s2 = Some (None, s2) ∧
      TryUnwrap 0 (S 0%nat) 0%nat s1 = Some (Some (7, true), s3) ∧
      Upgrade w s3 = Some (None, s3)).
Proof.
  split; [first [reflexivity | done | by vm_compute]|].
  split; [first [reflexivity | done | by vm_compute]|].
  apply (Weak_does_not_keep_alive 0 sole_owner 0%nat 0%nat 7 0%nat);
    first [reflexivity | done | by vm_compute].
Defined.

Lemma Upgrade_like_Clone_witness :
  arcs sole_owner !! 0%nat = Some (MkArc (Some 0%nat)) ∧
  weaks sole_owner !! 0%nat = Some (MkWeak (Some 0%nat)) ∧
  blocks sole_owner !! 0%nat = Some (ArcInternal 7 1) ∧
  1 ≤ 1 ≤ Int64.max_int ∧
  (∃ a' s', Clone 0 sole_owner = Some (Some a', s')) ∧
  (1 < Int64.max_int → Upgrade 0 sole_owner = Clone 0 sole_owner) ∧
  (1 = Int64.max_int → Upgrade 0 sole_owner = Some (None, sole_owner)).
Proof.
  split; [reflexivity|]. split; [reflexivity|]. split; [reflexivity|].
  split; [done|].
  apply (Upgrade_like_Clone sole_owner 0%nat 0%nat 0%nat 7 1);
    [reflexivity|reflexivity|reflexivity|done].
Defined.

Lemma Ref_Release_once_witness :
  arcs saturated !! 0%nat = Some (MkArc (Some 0%nat)) ∧
  blocks saturated !! 0%nat = Some (ArcInternal 7 Int64.max_int) ∧
  1 ≤ Int64.max_int ≤ Int64.max_int ∧
  ∃ a' s1 s2,
    AsRef 0 saturated = Some (Some (Some a'), s1) ∧
    ref_at 0 s1 = Some (Int64.wrap (Int64.max_int + 1)) ∧
    (Int64.max_int < Int64.max_int →
       Int64.wrap (Int64.max_int + 1) = Int64.max_int + 1) ∧
    Ref_Deref (Some a') s1 = Some (Some 0%nat, s1) ∧
    Ref_Release (Some a') s1 = Some (None, s2) ∧
    blocks s2 = blocks saturated ∧
    (let! r := Ref_Release (Some a') in Ref_Release r) s1 = Some (None, s2) ∧
    (let! r := Ref_Release (Some a') in Ref_Deref r) s1 = Some (None, s2).
Proof.
  split; [reflexivity|]. split; [reflexivity|]. split; [done|].
  apply (Ref_Release_once saturated 0%nat 0%nat 7 Int64.max_int);
    [reflexivity|reflexivity|done].
Defined.

Lemma MergeArcs_in_order_witness :
  (Forall (λ arc, ∀ a, arc = Some a →
            ∃ l b, arcs two_cells !! a = Some (MkArc (Some l)) ∧ blocks two_cells !! l = Some b)
         [Some 0%nat; None; Some 1%nat]) ∧
  (MergeArcs_values 0 [Some 0%nat; None; Some 1%nat] two_cells = Some (merged_value 0 two_cells <$> [Some 0%nat; None; Some 1%nat], two_cells) ∧
    MergeArcs 0 [Some 0%nat; None; Some 1%nat] two_cells arc.empty = NewArc (merged_value 0 two_cells <$> [Some 0%nat; None; Some 1%nat]) arc.empty).
Proof.
  split; [repeat constructor; intros ? [= <-]; eexists _, _; split; reflexivity|].
  apply (MergeArcs_in_order 0 [Some 0%nat; None; Some 1%nat] two_cells arc.empty);
    repeat constructor; intros ? [= <-]; eexists _, _; split; reflexivity.
Defined.

Lemma MergeArcs_panics_witness :
  (Some 2%nat ∈ [Some 0%nat; Some 2%nat]) ∧
  (arcs two_cells !! 2%nat = Some (MkArc None)) ∧
  (MergeArcs 0 [Some 0%nat; Some 2%nat] two_cells arc.empty = None).
Proof.
  split; [first [reflexivity | repeat constructor]|].
  split; [first [reflexivity | repeat constructor]|].
  apply (MergeArcs_panics 0 [Some 0%nat; Some 2%nat] two_cells arc.empty 2%nat);
    first [reflexivity | repeat constructor].
Defined.


Lemma All_completes_with_last_witness :
  (ready (WithCancel Background None) 0%nat = false) ∧
  ((∀ f, f ∈ [t1; t2; t3] → is_Some (done f))) ∧
  (∃ t, done (All 0 None 0%nat [t1; t2; t3]) = Some t ∧
         (0 ≤ t)%nat ∧
         (∀ f d, f ∈ [t1; t2; t3] → done f = Some d → (d ≤ t)%nat) ∧
         (t = 0%nat ∨ ∃ f, f ∈ [t1; t2; t3] ∧ done f = Some t)).
Proof.
  split; [first [reflexivity | exact inputs_done]|].
  split; [first [reflexivity | exact inputs_done]|].
  apply (All_completes_with_last 0 None 0%nat [t1; t2; t3]);
    first [reflexivity | exact inputs_done].
Defined.

Lemma GetWithTimeout_after_cancel_witness :
  (done t_cancelled_late = Some 2%nat) ∧
  (2 ≤ 6)%nat ∧
  (ctx t_cancelled_late = Some 4%nat) ∧
  (4 ≤ 6)%nat ∧
  (((result t_cancelled_late, true), 6%nat) ∈ GetWithTimeout 0 t_cancelled_late 5%Z 6%nat ∧
    ((0, false), 6%nat) ∈ GetWithTimeout 0 t_cancelled_late 5%Z 6%nat).
Proof.
  split; [first [reflexivity | lia]|].
  split; [first [reflexivity | lia]|].
  split; [first [reflexivity | lia]|].
  split; [first [reflexivity | lia]|].
  apply (GetWithTimeout_after_cancel 0 t_cancelled_late 5%Z 6%nat 2%nat 4%nat);
    first [reflexivity | lia].
Defined.

Lemma combinators_drop_input_errors_witness :
  (ready (WithCancel Background None) 1%nat = false) ∧
  (err (Then 0 None 1%nat t1 Z.succ) = None ∧
    err (Map 0 None 1%nat t1 Z.succ) = None ∧
    err (All 0 None 1%nat [t1; t2]) = None ∧
    ∀ (fn0 : Blocking Z) (c start0 : nat),
      (c ≤ start0)%nat →
      err (New 0 (Some c) start0 fn0) = Some Canceled ∧
      Then 0 None 1%nat (New 0 (Some c) start0 fn0) Z.succ =
        FutureImpl (WithCancel Background None) (Z.succ 0)
                   (Some (1 `max` start0)%nat) None).
Proof.
  split; [first [reflexivity | done | by vm_compute]|].
  apply (combinators_drop_input_errors 0 0 None 1%nat t1 Z.succ [t1; t2]);
    first [reflexivity | done | by vm_compute].
Defined.

Lemma results_are_canonical_witness :
  (opt.Option_canonical (opt.Some_ 3)) ∧
  (opt.Option_canonical (opt.None_ (T:=Z))) ∧
  (opt.Option_canonical (opt.Some_ 5)) ∧
  (opt.Option_canonical (opt.Some_ (opt.MkPair 1 2))) ∧
  ((opt.present (opt.Some_ (opt.Some_ 4)) = true → opt.Option_canonical (opt.value (opt.Some_ (opt.Some_ 4))))) ∧
  ((∀ x, opt.Option_canonical ((λ x : Z, opt.Some_ x) x))) ∧
  (opt.Option_canonical ((λ _ : unit, opt.None_ (T:=Z)) tt)) ∧
  (opt.Result_canonical (opt.Ok (E:=Z) 6)) ∧
  ((∀ x, opt.Result_canonical ((λ x : Z, opt.Ok (E:=Z) x) x))) ∧
  ((∀ x, opt.Result_canonical ((λ x : Z, opt.Err (T:=Z) x) x))) ∧
  (opt.Option_canonical (opt.Some_ 7) ∧
    opt.Option_canonical (opt.None_ (T:=Z)) ∧
    opt.Option_canonical (opt.Map (opt.Some_ 3) Z.succ) ∧
    opt.Option_canonical (opt.AndThen (opt.Some_ 3) (λ x : Z, opt.Some_ x)) ∧
    opt.Option_canonical (opt.Or (opt.Some_ 3) (opt.None_ (T:=Z))) ∧
    opt.Option_canonical (opt.OrElse (opt.Some_ 3) (λ _ : unit, opt.None_ (T:=Z))) ∧
    opt.Option_canonical (opt.And (opt.Some_ 3) (opt.None_ (T:=Z))) ∧
    opt.Option_canonical (opt.Filter (opt.Some_ 3) Z.even) ∧
    opt.Option_canonical (opt.Flatten (opt.Some_ (opt.Some_ 4))) ∧
    opt.Option_canonical (opt.FromPtr (Some 9)) ∧
    opt.Option_canonical (opt.FromResult (opt.Ok (E:=Z) 6)) ∧
    opt.Option_canonical (opt.Result_ToOption (opt.Ok (E:=Z) 6)) ∧
    opt.Option_canonical (opt.Zip (opt.Some_ 3) (opt.Some_ 5)) ∧
    opt.Option_canonical (opt.Unzip (opt.Some_ (opt.MkPair 1 2))).1 ∧
    opt.Option_canonical (opt.Unzip (opt.Some_ (opt.MkPair 1 2))).2 ∧
    opt.Result_canonical (opt.ToResult (opt.Some_ 3) 8) ∧
    opt.Result_canonical (opt.Ok (E:=Z) 7) ∧
    opt.Result_canonical (opt.Err (T:=Z) 8) ∧
    opt.Result_canonical (opt.MapResult (opt.Ok (E:=Z) 6) Z.succ) ∧
    opt.Result_canonical (opt.MapErr (opt.Ok (E:=Z) 6) Z.succ) ∧
    opt.Result_canonical (opt.AndThenResult (opt.Ok (E:=Z) 6) (λ x : Z, opt.Ok (E:=Z) x)) ∧
    opt.Result_canonical (opt.OrElseResult (opt.Ok (E:=Z) 6) (λ x : Z, opt.Err (T:=Z) x))).
Proof.
  split; [first [done | by vm_compute | by intros; vm_compute]|].
  split; [first [done | by vm_compute | by intros; vm_compute]|].
  split; [first [done | by vm_compute | by intros; vm_compute]|].
  split; [first [done | by vm_compute | by intros; vm_compute]|].
  split; [first [done | by vm_compute | by intros; vm_compute]|].
  split; [first [done | by vm_compute | by intros; vm_compute]|].
  split; [first [done | by vm_compute | by intros; vm_compute]|].
  split; [first [done | by vm_compute | by intros; vm_compute]|].
  split; [first [done | by vm_compute | by intros; vm_compute]|].
  split; [first [done | by vm_compute | by intros; vm_compute]|].
  apply (results_are_canonical (opt.Some_ 3) (opt.None_ (T:=Z)) (opt.Some_ (opt.Some_ 4)) (opt.Some_ (opt.MkPair 1 2)) (opt.Some_ 5) (opt.Ok (E:=Z) 6) 7 8 (Some 9) Z.succ (λ x : Z, opt.Some_ x) (λ _ : unit, opt.None_ (T:=Z)) Z.even Z.succ (λ x : Z, opt.Ok (E:=Z) x) (λ x : Z, opt.Err (T:=Z) x));
    first [done | by vm_compute | by intros; vm_compute].
Defined.

Lemma AndThen_laws_witness :
  (opt.Option_canonical (opt.None_ (T:=Z))) ∧
  (opt.Result_canonical (opt.Err (T:=Z) 8)) ∧
  (opt.AndThen (opt.Some_ 7) (λ x : Z, opt.Some_ (Z.succ x)) = (λ x : Z, opt.Some_ (Z.succ x)) 7 ∧
    opt.AndThen (opt.None_ (T:=Z)) opt.Some_ = (opt.None_ (T:=Z)) ∧
    opt.AndThen (opt.AndThen (opt.None_ (T:=Z)) (λ x : Z, opt.Some_ (Z.succ x))) (λ x : Z, opt.Some_ (Z.even x)) = opt.AndThen (opt.None_ (T:=Z)) (λ x, opt.AndThen ((λ x : Z, opt.Some_ (Z.succ x)) x) (λ x : Z, opt.Some_ (Z.even x))) ∧
    opt.AndThen (opt.None_ (T:=Z)) (λ x : Z, opt.Some_ (Z.succ x)) = opt.Flatten (opt.Map (opt.None_ (T:=Z)) (λ x : Z, opt.Some_ (Z.succ x))) ∧
    opt.AndThenResult (opt.Ok 7) (λ x : Z, opt.Ok (E:=Z) (Z.succ x)) = (λ x : Z, opt.Ok (E:=Z) (Z.succ x)) 7 ∧
    opt.AndThenResult (opt.Err (T:=Z) 8) opt.Ok = (opt.Err (T:=Z) 8) ∧
    opt.AndThenResult (opt.AndThenResult (opt.Err (T:=Z) 8) (λ x : Z, opt.Ok (E:=Z) (Z.succ x))) (λ x : Z, opt.Ok (E:=Z) (Z.even x)) =
      opt.AndThenResult (opt.Err (T:=Z) 8) (λ x, opt.AndThenResult ((λ x : Z, opt.Ok (E:=Z) (Z.succ x)) x) (λ x : Z, opt.Ok (E:=Z) (Z.even x)))).
Proof.
  split; [first [done | by vm_compute | by intros; vm_compute]|].
  split; [first [done | by vm_compute | by intros; vm_compute]|].
  apply (AndThen_laws (opt.None_ (T:=Z)) (opt.Err (T:=Z) 8) 7 (λ x : Z, opt.Some_ (Z.succ x)) (λ x : Z, opt.Some_ (Z.even x)) (λ x : Z, opt.Ok (E:=Z) (Z.succ x)) (λ x : Z, opt.Ok (E:=Z) (Z.even x)));
    first [done | by vm_compute | by intros; vm_compute].
Defined.

Lemma Map_laws_witness :
  (opt.Option_canonical (opt.None_ (T:=Z))) ∧
  (opt.Result_canonical (opt.Err (T:=Z) 8)) ∧
  (opt.Map (opt.Map (opt.None_ (T:=Z)) Z.succ) Z.even = opt.Map (opt.None_ (T:=Z)) (Z.even ∘ Z.succ) ∧
    opt.Map (opt.None_ (T:=Z)) id = (opt.None_ (T:=Z)) ∧
    opt.Map (opt.None_ (T:=Z)) Z.succ = opt.AndThen (opt.None_ (T:=Z)) (λ x, opt.Some_ (Z.succ x)) ∧
    opt.MapOr (opt.None_ (T:=Z)) 4 Z.succ = opt.Option_UnwrapOr (opt.Map (opt.None_ (T:=Z)) Z.succ) 4 ∧
    opt.MatchOption (opt.None_ (T:=Z)) Z.succ (λ _ : unit, 5) = opt.MapOrElse (opt.None_ (T:=Z)) (λ _ : unit, 5) Z.succ ∧
    opt.MapResult (opt.MapResult (opt.Err (T:=Z) 8) Z.succ) Z.even = opt.MapResult (opt.Err (T:=Z) 8) (Z.even ∘ Z.succ) ∧
    opt.MapResult (opt.Err (T:=Z) 8) id = (opt.Err (T:=Z) 8) ∧
    opt.MapErr (opt.MapResult (opt.Err (T:=Z) 8) Z.succ) Z.pred = opt.MapResult (opt.MapErr (opt.Err (T:=Z) 8) Z.pred) Z.succ).
Proof.
  split; [first [done | by vm_compute | by intros; vm_compute]|].
  split; [first [done | by vm_compute | by intros; vm_compute]|].
  apply (Map_laws (opt.None_ (T:=Z)) (opt.Err (T:=Z) 8) Z.succ Z.even Z.pred 4 (λ _ : unit, 5));
    first [done | by vm_compute | by intros; vm_compute].
Defined.

Lemma conversions_round_trip_witness :
  (opt.Option_canonical (opt.Some_ 3)) ∧
  (opt.Result_canonical (opt.Err (T:=Z) 8)) ∧
  (opt.FromResult (opt.ToResult (opt.Some_ 3) 9) = (opt.Some_ 3) ∧
    opt.Result_ToOption (opt.ToResult (opt.Some_ 3) 9) = (opt.Some_ 3) ∧
    opt.Result_ToOption (opt.Err (T:=Z) 8) = opt.FromResult (opt.Err (T:=Z) 8) ∧
    (opt.ok (opt.Err (T:=Z) 8) = true → opt.ToResult (opt.FromResult (opt.Err (T:=Z) 8)) 9 = (opt.Err (T:=Z) 8)) ∧
    (opt.ok (opt.Err (T:=Z) 8) = false → opt.FromResult (opt.Err (T:=Z) 8) = opt.None_ ∧
                        opt.ToResult (opt.FromResult (opt.Err (T:=Z) 8)) 9 = opt.Err 9) ∧
    opt.FromPtr (opt.ToPtr (opt.Some_ 3)) = (opt.Some_ 3) ∧
    opt.ToPtr (opt.FromPtr (Some 4)) = (Some 4)).
Proof.
  split; [first [done | by vm_compute | by intros; vm_compute]|].
  split; [first [done | by vm_compute | by intros; vm_compute]|].
  apply (conversions_round_trip (opt.Some_ 3) (opt.Err (T:=Z) 8) 9 (Some 4));
    first [done | by vm_compute | by intros; vm_compute].
Defined.

Lemma Zip_Unzip_witness :
  (opt.Option_canonical (opt.None_ (T:=opt.Pair Z bool))) ∧
  (opt.Zip (opt.Unzip (opt.None_ (T:=opt.Pair Z bool))).1 (opt.Unzip (opt.None_ (T:=opt.Pair Z bool))).2 = (opt.None_ (T:=opt.Pair Z bool)) ∧
    opt.Unzip (opt.Zip (opt.Some_ 3) (opt.None_ (T:=bool))) =
      if opt.present (opt.Some_ 3) && opt.present (opt.None_ (T:=bool)) then ((opt.Some_ 3), (opt.None_ (T:=bool))) else (opt.None_, opt.None_)).
Proof.
  split; [first [done | by vm_compute | by intros; vm_compute]|].
  apply (Zip_Unzip (opt.Some_ 3) (opt.None_ (T:=bool)) (opt.None_ (T:=opt.Pair Z bool)));
    first [done | by vm_compute | by intros; vm_compute].
Defined.

Lemma Cancel_only_before_start_witness :
  (2 ≤ 3)%nat ∧
  New 0 (Some 2%nat) 3 (bret 5) = FutureImpl (Some 2%nat) 0 (Some 3%nat) (Some Canceled) ∧
  (3 < 4)%nat ∧
  New 0 (Some 4%nat) 3 (bret 5) = FutureImpl (Some 4%nat) 5 (Some 3%nat) None.
Proof.
  split; [lia|]. split.
  { apply (proj1 (Cancel_only_before_start 0 (bret 5) 3%nat 2%nat)). lia. }
  split; [lia|].
  rewrite (proj2 (Cancel_only_before_start 0 (bret 5) 3%nat 4%nat)) by lia.
  reflexivity.
Defined.

Lemma GetWithTimeout_determinate_witness :
  done t1 = Some 3%nat ∧ (3 ≤ 5)%nat ∧ 0 < 2 ∧ ready (ctx t1) 5 = false ∧
  GetWithTimeout 0 t1 2 5 = [((10, true), 5%nat)] ∧
  ready (done t_running) (5 + Z.to_nat 2)%nat = false ∧
  ready (ctx t_running) (5 + Z.to_nat 2)%nat = false ∧
  GetWithTimeout 0 t_running 2 5 = [((0, false), 7%nat)].
Proof.
  split; [reflexivity|]. split; [lia|]. split; [lia|]. split; [reflexivity|].
  split.
  { apply (proj1 (GetWithTimeout_determinate 0 t1 2 5%nat) 3%nat);
      first [reflexivity | lia]. }
  split; [reflexivity|]. split; [reflexivity|].
  apply (proj2 (GetWithTimeout_determinate 0 t_running 2 5%nat)); reflexivity.
Defined.

Lemma Map_composes_witness :
  done t1 = Some 3%nat ∧
  Map false None 2 (Map 0 None 1 t1 Z.succ) Z.even =
    FutureImpl None (Z.even (Z.succ 10)) (Some 3%nat) None ∧
  Map false None 5 t1 (Z.even ∘ Z.succ) =
    FutureImpl None (Z.even (Z.succ 10)) (Some 5%nat) None.
Proof.
  split; [reflexivity|].
  apply (proj1 (Map_composes 0 false 1%nat 2%nat 5%nat t1 Z.succ Z.even) 3%nat).
  reflexivity.
Defined.
